(** * LoRa-L298N tank controller: ramp controller and Bluetooth-to-LoRa gateway

    A shallow embedding of [tx_bluetooth/TankShift.cpp] (class [Tank]) and of
    the Bluetooth-to-LoRa gateway sketch, with the properties the
    specification states about them.

    C++ integers are modelled as [Z]; every conversion to a fixed-width type
    that the source performs is written out with [wrap_u8], [wrap_u32] or
    [wrap_i16]. *)

From Stdlib Require Import ZArith Lia List String Ascii Bool.
From coqutil Require Import Z.bitblast.
Import ListNotations.
Local Open Scope Z_scope.

(** ** Fixed-width integers *)

Definition wrap_u8 (z : Z) : Z := z mod 256.
Definition wrap_u32 (z : Z) : Z := z mod 2 ^ 32.
Definition wrap_i16 (z : Z) : Z := (z + 32768) mod 65536 - 32768.

Definition is_u8 (z : Z) : Prop := 0 <= z <= 255.
Definition is_i16 (z : Z) : Prop := -32768 <= z <= 32767.

(** ** TankShift: the ramp controller *)

Module TankShift.

Inductive level : Type := LOW | HIGH.

(** The calls the class makes on the actuator boundary, in program order. *)
Inductive pin_write : Type :=
| DigitalWrite (pin : Z) (v : level)
| AnalogWrite (pin : Z) (duty : Z).

(** The private fields of [class Tank] (TankShift.h). *)
Record Tank : Type := mkTank {
  _leftIn1 : Z; _leftIn2 : Z; _leftPwm : Z;
  _rightIn1 : Z; _rightIn2 : Z; _rightPwm : Z;
  _targetLeftSpeed : Z;      (* int16_t *)
  _targetRightSpeed : Z;     (* int16_t *)
  _currentLeftSpeed : Z;     (* int16_t *)
  _currentRightSpeed : Z;    (* int16_t *)
  _rampStep : Z;             (* uint8_t *)
  _rampInterval : Z;         (* uint8_t *)
  _lastRampTime : Z          (* uint32_t *)
}.

(** [Tank::Tank]: the pins are stored, every other field takes its default
    member initialiser. *)
Definition Tank_new (leftIn1 leftIn2 leftPwm rightIn1 rightIn2 rightPwm : Z) : Tank :=
  mkTank leftIn1 leftIn2 leftPwm rightIn1 rightIn2 rightPwm 0 0 0 0 10 10 0.

Definition set_targets (t : Tank) (l r : Z) : Tank :=
  mkTank (_leftIn1 t) (_leftIn2 t) (_leftPwm t)
         (_rightIn1 t) (_rightIn2 t) (_rightPwm t)
         l r (_currentLeftSpeed t) (_currentRightSpeed t)
         (_rampStep t) (_rampInterval t) (_lastRampTime t).

Definition setRamp (step interval : Z) (t : Tank) : Tank :=
  mkTank (_leftIn1 t) (_leftIn2 t) (_leftPwm t)
         (_rightIn1 t) (_rightIn2 t) (_rightPwm t)
         (_targetLeftSpeed t) (_targetRightSpeed t)
         (_currentLeftSpeed t) (_currentRightSpeed t)
         step interval (_lastRampTime t).

(** [Tank::setSpeed(uint8_t left, uint8_t right)]. *)
Definition setSpeed (left right : Z) (t : Tank) : Tank :=
  let newLeft := wrap_i16 left in
  let newRight := wrap_i16 right in
  let newLeft := if _targetLeftSpeed t <? 0 then wrap_i16 (- newLeft) else newLeft in
  let newRight := if _targetRightSpeed t <? 0 then wrap_i16 (- newRight) else newRight in
  set_targets t newLeft newRight.

Definition forward (t : Tank) : Tank :=
  set_targets t (wrap_i16 (Z.abs (_targetLeftSpeed t)))
                (wrap_i16 (Z.abs (_targetRightSpeed t))).

Definition backward (t : Tank) : Tank :=
  set_targets t (wrap_i16 (- Z.abs (_targetLeftSpeed t)))
                (wrap_i16 (- Z.abs (_targetRightSpeed t))).

Definition left (t : Tank) : Tank :=
  set_targets t (wrap_i16 (- Z.abs (_targetLeftSpeed t)))
                (wrap_i16 (Z.abs (_targetRightSpeed t))).

Definition right (t : Tank) : Tank :=
  set_targets t (wrap_i16 (Z.abs (_targetLeftSpeed t)))
                (wrap_i16 (- Z.abs (_targetRightSpeed t))).

Definition stop (t : Tank) : Tank := set_targets t 0 0.

(** [Tank::driveLeft(int16_t speed)]: the three writes of the taken branch. *)
Definition driveLeft (t : Tank) (speed : Z) : list pin_write :=
  if speed >? 0 then
    [DigitalWrite (_leftIn1 t) HIGH; DigitalWrite (_leftIn2 t) LOW;
     AnalogWrite (_leftPwm t) speed]
  else if speed <? 0 then
    [DigitalWrite (_leftIn1 t) LOW; DigitalWrite (_leftIn2 t) HIGH;
     AnalogWrite (_leftPwm t) (- speed)]
  else
    [DigitalWrite (_leftIn1 t) LOW; DigitalWrite (_leftIn2 t) LOW;
     AnalogWrite (_leftPwm t) 0].

Definition driveRight (t : Tank) (speed : Z) : list pin_write :=
  if speed >? 0 then
    [DigitalWrite (_rightIn1 t) HIGH; DigitalWrite (_rightIn2 t) LOW;
     AnalogWrite (_rightPwm t) speed]
  else if speed <? 0 then
    [DigitalWrite (_rightIn1 t) LOW; DigitalWrite (_rightIn2 t) HIGH;
     AnalogWrite (_rightPwm t) (- speed)]
  else
    [DigitalWrite (_rightIn1 t) LOW; DigitalWrite (_rightIn2 t) LOW;
     AnalogWrite (_rightPwm t) 0].

(** The interval guard of [Tank::update]: [now - _lastRampTime] is a
    [uint32_t] difference. *)
Definition ramp_due (now : Z) (t : Tank) : bool :=
  negb (wrap_u32 (now - _lastRampTime t) <? _rampInterval t).

(** [Tank::update()], with [now] the value [millis()] returns.  The result
    is the new object state and the writes made on the pins. *)
Definition update (now : Z) (t : Tank) : Tank * list pin_write :=
  if wrap_u32 (now - _lastRampTime t) <? _rampInterval t then (t, [])
  else
    let curL :=
      if _currentLeftSpeed t <? _targetLeftSpeed t then
        Z.min (wrap_i16 (_currentLeftSpeed t + _rampStep t)) (_targetLeftSpeed t)
      else if _currentLeftSpeed t >? _targetLeftSpeed t then
        Z.max (wrap_i16 (_currentLeftSpeed t - _rampStep t)) (_targetLeftSpeed t)
      else _currentLeftSpeed t in
    let curR :=
      if _currentRightSpeed t <? _targetRightSpeed t then
        Z.min (wrap_i16 (_currentRightSpeed t + _rampStep t)) (_targetRightSpeed t)
      else if _currentRightSpeed t >? _targetRightSpeed t then
        Z.max (wrap_i16 (_currentRightSpeed t - _rampStep t)) (_targetRightSpeed t)
      else _currentRightSpeed t in
    let t' :=
      mkTank (_leftIn1 t) (_leftIn2 t) (_leftPwm t)
             (_rightIn1 t) (_rightIn2 t) (_rightPwm t)
             (_targetLeftSpeed t) (_targetRightSpeed t)
             curL curR
             (_rampStep t) (_rampInterval t) now in
    (t', driveLeft t' curL ++ driveRight t' curR).

(** Successive calls of [update], one per [millis()] reading. *)
Fixpoint run_updates (nows : list Z) (t : Tank) : Tank :=
  match nows with
  | [] => t
  | now :: rest => run_updates rest (fst (update now t))
  end.

(** Every call of the run finds the ramp interval elapsed. *)
Fixpoint all_due (nows : list Z) (t : Tank) : bool :=
  match nows with
  | [] => true
  | now :: rest => ramp_due now t && all_due rest (fst (update now t))
  end.

(** The pins as the writes leave them. *)
Record Pins : Type := mkPins { digital : Z -> level; pwm : Z -> Z }.

Definition apply_write (p : Pins) (w : pin_write) : Pins :=
  match w with
  | DigitalWrite pin v =>
      mkPins (fun q => if q =? pin then v else digital p q) (pwm p)
  | AnalogWrite pin d =>
      mkPins (digital p) (fun q => if q =? pin then d else pwm p q)
  end.

Definition apply_writes (ws : list pin_write) (p : Pins) : Pins :=
  fold_left apply_write ws p.

(** The range every speed field stays in: magnitudes are PWM duties. *)
Definition speeds_in_range (t : Tank) : Prop :=
  -255 <= _targetLeftSpeed t <= 255 /\ -255 <= _targetRightSpeed t <= 255 /\
  -255 <= _currentLeftSpeed t <= 255 /\ -255 <= _currentRightSpeed t <= 255 /\
  0 <= _rampStep t <= 255.

Definition targets (t : Tank) : Z * Z := (_targetLeftSpeed t, _targetRightSpeed t).

(** The states a [Tank] object can be in: constructed, then driven through
    its public methods with arguments of their declared types. *)
Inductive reachable : Tank -> Prop :=
| reach_new (a b c d e f : Z) : reachable (Tank_new a b c d e f)
| reach_setRamp (t : Tank) (step interval : Z) :
    is_u8 step -> is_u8 interval -> reachable t -> reachable (setRamp step interval t)
| reach_setSpeed (t : Tank) (l r : Z) :
    is_u8 l -> is_u8 r -> reachable t -> reachable (setSpeed l r t)
| reach_forward (t : Tank) : reachable t -> reachable (forward t)
| reach_backward (t : Tank) : reachable t -> reachable (backward t)
| reach_left (t : Tank) : reachable t -> reachable (left t)
| reach_right (t : Tank) : reachable t -> reachable (right t)
| reach_stop (t : Tank) : reachable t -> reachable (stop t)
| reach_update (t : Tank) (now : Z) : reachable t -> reachable (fst (update now t)).

(** How one ramp tick may change a channel: by at most [step], staying
    between the old value and the target, and either reaching the target or
    moving the whole step. *)
Definition ramped (cur tgt step cur' : Z) : Prop :=
  Z.abs (cur' - cur) <= step /\
  (cur <= tgt -> cur <= cur' <= tgt) /\
  (tgt <= cur -> tgt <= cur' <= cur) /\
  (cur' = tgt \/ Z.abs (cur' - cur) = step).

(** [Tank::begin()]: the six pins are made outputs, then [stop()] is
    called.  The result is the object state and the pins configured, in
    program order. *)
Inductive pin_config : Type :=
| PinModeOutput (pin : Z).

Definition begin (t : Tank) : Tank * list pin_config :=
  (stop t,
   [PinModeOutput (_leftIn1 t); PinModeOutput (_leftIn2 t);
    PinModeOutput (_leftPwm t); PinModeOutput (_rightIn1 t);
    PinModeOutput (_rightIn2 t); PinModeOutput (_rightPwm t)]).

(** One call on the public interface of a [Tank], with its arguments; for
    [update] the argument is the reading of [millis()]. *)
Inductive call : Type :=
| CallSetRamp (step interval : Z)
| CallSetSpeed (l r : Z)
| CallForward
| CallBackward
| CallLeft
| CallRight
| CallStop
| CallUpdate (now : Z).

Definition do_call (c : call) (t : Tank) : Tank * list pin_write :=
  match c with
  | CallSetRamp step interval => (setRamp step interval t, [])
  | CallSetSpeed l r => (setSpeed l r t, [])
  | CallForward => (forward t, [])
  | CallBackward => (backward t, [])
  | CallLeft => (left t, [])
  | CallRight => (right t, [])
  | CallStop => (stop t, [])
  | CallUpdate now => update now t
  end.

(** A program's calls in order: the final state and all the pin writes. *)
Fixpoint run_calls (cs : list call) (t : Tank) : Tank * list pin_write :=
  match cs with
  | [] => (t, [])
  | c :: rest =>
      let '(t1, ws1) := do_call c t in
      let '(t2, ws2) := run_calls rest t1 in
      (t2, ws1 ++ ws2)
  end.

(** The arguments are of their declared type [uint8_t]. *)
Definition call_well_typed (c : call) : Prop :=
  match c with
  | CallSetRamp step interval => is_u8 step /\ is_u8 interval
  | CallSetSpeed l r => is_u8 l /\ is_u8 r
  | _ => True
  end.

(** No call asks for a speed other than zero. *)
Definition asks_no_speed (c : call) : bool :=
  match c with
  | CallSetSpeed l r => (l =? 0) && (r =? 0)
  | _ => true
  end.

(** A write that switches nothing on: a LOW level or a zero duty. *)
Definition write_is_off (w : pin_write) : bool :=
  match w with
  | DigitalWrite _ LOW => true
  | DigitalWrite _ HIGH => false
  | AnalogWrite _ d => d =? 0
  end.

End TankShift.

(** ** ControlProtocol: command frames, codec and cipher layer

    [common/ControlProtocol.h] is included by the gateway sketch but is not
    among the available sources.  The gateway below uses from it the types
    [Command] and [ControlFrame], the constant [kFrameSize] and the
    functions [initFrame] and [encryptFrame]. *)

Module ControlProtocol.

(** Modelled from the spec: the header ControlProtocol.h is missing; the
    data model gives the enumerated intent
    Stop | Forward | Backward | Left | Right | SetSpeed. *)
Inductive Command : Type := Stop | Forward | Backward | Left | Right | SetSpeed.

(** Modelled from the spec: the header ControlProtocol.h is missing; a
    ControlFrame carries the command, the two unsigned speed magnitudes and
    the 8-bit sequence number (the fields the gateway reads back as
    [frame.command], [frame.leftSpeed], [frame.rightSpeed], [frame.sequence]). *)
Record ControlFrame : Type := mkFrame {
  command : Command;
  leftSpeed : Z;     (* uint8_t *)
  rightSpeed : Z;    (* uint8_t *)
  sequence : Z       (* uint8_t *)
}.

(** Modelled from the spec: the header ControlProtocol.h is missing; the
    wire frame has one cipher block. *)
Definition kFrameSize : Z := 16.

(** Modelled from the spec: the header ControlProtocol.h is missing;
    [initFrame] fills a frame with the command, the speeds and the sequence
    number it is given, each a [uint8_t] parameter. *)
Definition initFrame (cmd : Command) (left right seq : Z) : ControlFrame :=
  mkFrame cmd (wrap_u8 left) (wrap_u8 right) (wrap_u8 seq).

Inductive DecodeError : Type := ProtocolMismatch | IntegrityError.

Inductive result (A : Type) : Type :=
| Ok (a : A)
| Err (e : DecodeError).
Arguments Ok {A} a.
Arguments Err {A} e.

(** What the spec leaves to the implementer, and both ends must agree on:
    the magic value and version byte, the 32-bit checksum algorithm, the
    256-bit key, the initialisation vector and the block cipher. *)
Record WireContract : Type := mkWire {
  kMagic : Z;
  kVersion : Z;
  checksum : list Z -> Z;
  kKey : list Z;
  kIv : list Z;
  block_encrypt : list Z -> list Z -> list Z;
  block_decrypt : list Z -> list Z -> list Z
}.

(** The block cipher is a keyed permutation of 16-byte blocks. *)
Definition cipher_invertible (W : WireContract) : Prop :=
  forall blk, List.length blk = 16%nat ->
    block_decrypt W (kKey W) (block_encrypt W (kKey W) blk) = blk /\
    List.length (block_encrypt W (kKey W) blk) = 16%nat.

Definition command_code (c : Command) : Z :=
  match c with
  | Stop => 0 | Forward => 1 | Backward => 2
  | Left => 3 | Right => 4 | SetSpeed => 5
  end.

Definition command_of_code (b : Z) : option Command :=
  if b =? 0 then Some Stop
  else if b =? 1 then Some Forward
  else if b =? 2 then Some Backward
  else if b =? 3 then Some Left
  else if b =? 4 then Some Right
  else if b =? 5 then Some SetSpeed
  else None.

(** The four bytes of a 32-bit value, least significant first. *)
Definition u32_bytes (w : Z) : list Z :=
  [Z.land w 255; Z.land (Z.shiftr w 8) 255;
   Z.land (Z.shiftr w 16) 255; Z.land (Z.shiftr w 24) 255].

Definition u32_of_bytes (bs : list Z) : Z :=
  match bs with
  | [b0; b1; b2; b3] =>
      Z.lor b0 (Z.lor (Z.shiftl b1 8) (Z.lor (Z.shiftl b2 16) (Z.shiftl b3 24)))
  | _ => 0
  end.

(** Modelled from the spec: the codec of ControlProtocol.h is missing.  The
    plaintext frame starts with the magic constant and the version byte,
    then holds command, left speed, right speed and sequence, is padded with
    zero bytes, and ends with the 32-bit checksum of the twelve bytes before
    it; sixteen bytes in all. *)
Definition frame_body (W : WireContract) (f : ControlFrame) : list Z :=
  [wrap_u8 (kMagic W); wrap_u8 (kVersion W); command_code (command f);
   leftSpeed f; rightSpeed f; sequence f; 0; 0; 0; 0; 0; 0].

Definition encode (W : WireContract) (f : ControlFrame) : list Z :=
  frame_body W f ++ u32_bytes (wrap_u32 (checksum W (frame_body W f))).

(** Modelled from the spec: the codec of ControlProtocol.h is missing.
    Decoding checks magic and version (ProtocolMismatch), then recomputes
    the checksum over the non-checksum part and compares (IntegrityError).
    The spec names no error for a buffer of another size or a command byte
    outside the enumeration; both are reported as ProtocolMismatch here. *)
Definition decode (W : WireContract) (buf : list Z) : result ControlFrame :=
  match buf with
  | [m; v; c; l; r; s; p0; p1; p2; p3; p4; p5; c0; c1; c2; c3] =>
      if negb ((m =? wrap_u8 (kMagic W)) && (v =? wrap_u8 (kVersion W)))
      then Err ProtocolMismatch
      else if negb (u32_of_bytes [c0; c1; c2; c3] =?
                    wrap_u32 (checksum W [m; v; c; l; r; s; p0; p1; p2; p3; p4; p5]))
      then Err IntegrityError
      else match command_of_code c with
           | Some cmd => Ok (mkFrame cmd l r s)
           | None => Err ProtocolMismatch
           end
  | _ => Err ProtocolMismatch
  end.

Fixpoint xor_bytes (a b : list Z) : list Z :=
  match a, b with
  | x :: a', y :: b' => Z.lxor x y :: xor_bytes a' b'
  | _, _ => b
  end.

(** Modelled from the spec: the cipher layer of ControlProtocol.h is
    missing.  Cipher-block chaining over the single block of a frame: the
    plaintext is combined with the initialisation vector and passed through
    the block cipher; a buffer of the wrong size is a reported failure. *)
Definition encryptFrame (W : WireContract) (f : ControlFrame) (outLen : Z)
  : option (list Z) :=
  if outLen =? kFrameSize
  then Some (block_encrypt W (kKey W) (xor_bytes (kIv W) (encode W f)))
  else None.

(** Modelled from the spec: the cipher layer of ControlProtocol.h is
    missing.  The inverse of [encryptFrame] on a buffer of one block. *)
Definition decryptFrame (W : WireContract) (buf : list Z) : option (list Z) :=
  if Z.of_nat (List.length buf) =? kFrameSize
  then Some (xor_bytes (kIv W) (block_decrypt W (kKey W) buf))
  else None.

(** Modelled from the spec: the receive path of ControlProtocol.h is
    missing.  The pipeline up to the decoded frame: decrypt, then decode,
    each stage stopping at its first failure. *)
Definition receiveFrame (W : WireContract) (buf : list Z) : result ControlFrame :=
  match decryptFrame W buf with
  | Some plain => decode W plain
  | None => Err ProtocolMismatch
  end.

(** One admissible checksum: the reflected CRC-32 with polynomial EDB88320. *)
Definition crc32_bit (crc : Z) : Z :=
  if Z.odd crc then Z.lxor (Z.shiftr crc 1) 3988292384 else Z.shiftr crc 1.

Definition crc32_byte (crc b : Z) : Z :=
  let c := Z.lxor crc b in
  crc32_bit (crc32_bit (crc32_bit (crc32_bit
    (crc32_bit (crc32_bit (crc32_bit (crc32_bit c))))))).

Definition crc32_ieee (data : list Z) : Z :=
  Z.lxor (fold_left crc32_byte data 4294967295) 4294967295.

(** A concrete contract to run the codec and the cipher layer on: magic
    byte 84, version 1, the CRC-32 above, a key of the bytes 0 to 31, an
    all-zero initialisation vector, and as block cipher the simplest keyed
    permutation of blocks, the byte-wise exclusive or with the first sixteen
    key bytes. *)
Definition sample_key : list Z :=
  [0; 1; 2; 3; 4; 5; 6; 7; 8; 9; 10; 11; 12; 13; 14; 15;
   16; 17; 18; 19; 20; 21; 22; 23; 24; 25; 26; 27; 28; 29; 30; 31].

Definition sample_wire : WireContract :=
  mkWire 84 1 crc32_ieee sample_key (repeat 0 16)
         (fun key blk => xor_bytes (firstn 16 key) blk)
         (fun key blk => xor_bytes (firstn 16 key) blk).

End ControlProtocol.

(** ** The Bluetooth-to-LoRa gateway sketch *)

Module Gateway.

Import ControlProtocol.

(** Console output is kept as the text handed to [print]/[println] or as the
    format string of [printf] with its arguments. *)
Inductive fmt_arg : Type :=
| ArgInt (z : Z)
| ArgStr (s : string)
| ArgChar (c : ascii).

Inductive text : Type :=
| Lit (s : string)
| Fmt (fmt : string) (args : list fmt_arg).

(** The calls the sketch makes on its collaborators, in program order. *)
Inductive event : Type :=
| SerialPrint (t : text)
| SerialPrintln (t : text)
| BtPrint (t : text)
| BtPrintln (t : text)
| LoRaIdle
| LoRaBeginPacket
| LoRaWrite (buf : list Z)
| LoRaEndPacket (ret : Z)
| LoRaReceive
| Delay (ms : Z).

(** The global variables of the sketch. *)
Record State : Type := mkState {
  currentSpeed : Z;          (* uint8_t *)
  currentState : string;     (* String *)
  lastCommandTime : Z;       (* unsigned long *)
  sequenceCounter : Z        (* uint8_t *)
}.

Definition COMMAND_TIMEOUT : Z := 2000.

(** The globals as their initialisers leave them. *)
Definition startup : State := mkState 200 "STOP" 0 0.

Definition with_speed (g : State) (v : Z) : State :=
  mkState v (currentState g) (lastCommandTime g) (sequenceCounter g).

Definition with_state (g : State) (s : string) : State :=
  mkState (currentSpeed g) s (lastCommandTime g) (sequenceCounter g).

Definition with_lastCommandTime (g : State) (t : Z) : State :=
  mkState (currentSpeed g) (currentState g) t (sequenceCounter g).

Definition with_sequenceCounter (g : State) (n : Z) : State :=
  mkState (currentSpeed g) (currentState g) (lastCommandTime g) n.

(** What one call of [sendLoRaFrame] did: the value returned, the local
    [frame] it built, the globals afterwards and the calls made. *)
Record SendOutcome : Type := mkSend {
  send_ok : bool;
  send_frame : ControlFrame;
  send_state : State;
  send_events : list event
}.

(** What the environment answers during [handleBluetoothCommand]. *)
Record Env : Type := mkEnv {
  env_endPacket : Z;     (* LoRa.endPacket() *)
  env_millis : Z;        (* millis(), read by printStatus *)
  env_freeHeap : Z       (* ESP.getFreeHeap(), read by printStatus *)
}.

(** What one call of [handleBluetoothCommand] or one pass of [loop] did. *)
Record Outcome : Type := mkOutcome {
  out_state : State;
  out_events : list event;
  out_sends : list SendOutcome
}.

(** What the environment answers during one pass of [loop]. *)
Record LoopInput : Type := mkLoopInput {
  bt_byte : option ascii;      (* SerialBT.available() and SerialBT.read() *)
  cmd_env : Env;
  millis_cmd : Z;              (* millis() stored in lastCommandTime *)
  millis_check : Z;            (* millis() of the timeout test *)
  endPacket_timeout : Z        (* LoRa.endPacket() of the timeout stop *)
}.

Definition toupper (c : ascii) : ascii :=
  let n := nat_of_ascii c in
  if (Nat.leb 97 n && Nat.leb n 122)%bool then ascii_of_nat (n - 32) else c.

Definition help : string :=
"
========================================
Bluetooth-to-LoRa Gateway - Commands
========================================

Movement (sends LoRa commands):
  W/F/8 - Forward
  S/B/2 - Backward
  A/L/4 - Left
  D/R/6 - Right
  X/ /5 - Stop

Speed Control:
  +/=   - Increase speed (+25)
  -/_   - Decrease speed (-25)
  1     - Slow (100)
  3     - Medium (200)
  9     - Fast (255)

Info:
  H/?   - Show this help
  I     - Show gateway status

========================================
This device transmits commands via LoRa
to the robot receiver (rx_driver)
========================================
".

Definition printHelp : list event :=
  [SerialPrintln (Lit help); BtPrintln (Lit help)].

Definition printStatus (env : Env) (g : State) : list event :=
  let status :=
    Fmt "\n--- Gateway Status ---\nState: %s\nSpeed: %d/255\nSequence: %d\nUptime: %lu s\nFree Heap: %u bytes\n---------------------\n"
        [ArgStr (currentState g); ArgInt (currentSpeed g);
         ArgInt (sequenceCounter g); ArgInt (env_millis env / 1000);
         ArgInt (env_freeHeap env)] in
  [SerialPrint status; BtPrint status].

(** The calls made on the radio, as opposed to the two consoles. *)
Definition is_radio_call (e : event) : bool :=
  match e with
  | LoRaIdle | LoRaBeginPacket | LoRaWrite _ | LoRaEndPacket _ | LoRaReceive => true
  | _ => false
  end.

(** A pass of [loop] that finds no Bluetooth byte, at a time more than
    [COMMAND_TIMEOUT] after [last]. *)
Definition silent_and_late (last : Z) (inp : LoopInput) : bool :=
  match bt_byte inp with
  | None => wrap_u32 (millis_check inp - last) >? COMMAND_TIMEOUT
  | Some _ => false
  end.

(** The passes of a run in which the timeout test of [loop] finds at most
    [COMMAND_TIMEOUT] milliseconds gone since the last byte, [last] being
    the time stored before the run. *)
Fixpoint kept_alive (last : Z) (inps : list LoopInput) : bool :=
  match inps with
  | [] => true
  | inp :: rest =>
      match bt_byte inp with
      | Some _ =>
          (wrap_u32 (millis_check inp - millis_cmd inp) <=? COMMAND_TIMEOUT)
          && kept_alive (millis_cmd inp) rest
      | None =>
          (wrap_u32 (millis_check inp - last) <=? COMMAND_TIMEOUT)
          && kept_alive last rest
      end
  end.

(** The passes of a run that find a Bluetooth byte. *)
Definition bytes_read (inps : list LoopInput) : nat :=
  List.length (filter (fun inp => match bt_byte inp with Some _ => true | None => false end)
                      inps).

(** The radio calls of one transmission: the packet [buf] and the value
    [ret] that [LoRa.endPacket()] returned. *)
Definition radio_transaction (tx : list Z * Z) : list event :=
  [LoRaIdle; LoRaBeginPacket; LoRaWrite (fst tx); LoRaEndPacket (snd tx); LoRaReceive].

(** The line that tells the operator a transmission failed. *)
Definition is_failure_report (e : event) : bool :=
  match e with
  | BtPrintln (Lit s) => String.eqb s "ERROR: LoRa transmission failed!"
  | _ => false
  end.

(** Two passes of [loop] that get the same byte, if any, and the same two
    clock readings; what the radio, the status clock and the heap answer
    may differ. *)
Definition same_bytes_and_clock (inp1 inp2 : LoopInput) : Prop :=
  bt_byte inp1 = bt_byte inp2 /\
  millis_cmd inp1 = millis_cmd inp2 /\
  millis_check inp1 = millis_check inp2.

(** A pass of [loop] that finds no Bluetooth byte. *)
Definition silent (inp : LoopInput) : bool :=
  match bt_byte inp with
  | None => true
  | Some _ => false
  end.

Section WithCipher.

(** [TankControl::encryptFrame(frame, out, outLen)]: [None] is the [false]
    return, [Some buf] is the [true] return with [buf] the content left in
    the [kFrameSize]-byte output array. *)
Variable encryptFrame : ControlFrame -> Z -> option (list Z).

(** [sendLoRaFrame(cmd, leftSpeed, rightSpeed)], with [endPacket] the value
    [LoRa.endPacket()] returns when it is reached. *)
Definition sendLoRaFrame (cmd : Command) (leftSpeed rightSpeed : Z)
    (endPacket : Z) (g : State) : SendOutcome :=
  let frame := initFrame cmd leftSpeed rightSpeed (sequenceCounter g) in
  let g := with_sequenceCounter g (wrap_u8 (sequenceCounter g + 1)) in
  match encryptFrame frame kFrameSize with
  | None =>
      mkSend false frame g [SerialPrintln (Lit "[LoRa] Encryption failed")]
  | Some encrypted =>
      let ok := endPacket =? 1 in
      mkSend ok frame g
        ([LoRaIdle; LoRaBeginPacket; LoRaWrite encrypted;
          LoRaEndPacket endPacket; LoRaReceive] ++
         (if ok then
            [SerialPrint (Fmt "[LoRa] >>> TX: cmd=%d seq=%d L=%d R=%d\n"
               [ArgInt (command_code (command frame)); ArgInt (sequence frame);
                ArgInt (ControlProtocol.leftSpeed frame);
                ArgInt (ControlProtocol.rightSpeed frame)])]
          else [SerialPrintln (Lit "[LoRa] TX FAILED!")]))
  end.

(** The [switch] of [handleBluetoothCommand]: the globals afterwards, the
    command to send when [sendCommand] was set, and the console output. *)
Definition dispatch (cmd : ascii) (env : Env) (g : State)
  : State * option Command * list event :=
  match cmd with
  | "W"%char | "F"%char | "8"%char =>
      (with_state g "FORWARD", Some Forward,
       [SerialPrintln (Lit "[BT] FORWARD"); BtPrintln (Lit "FORWARD")])
  | "S"%char | "B"%char | "2"%char =>
      (with_state g "BACKWARD", Some Backward,
       [SerialPrintln (Lit "[BT] BACKWARD"); BtPrintln (Lit "BACKWARD")])
  | "A"%char | "L"%char | "4"%char =>
      (with_state g "LEFT", Some Left,
       [SerialPrintln (Lit "[BT] LEFT"); BtPrintln (Lit "LEFT")])
  | "D"%char | "R"%char | "6"%char =>
      (with_state g "RIGHT", Some Right,
       [SerialPrintln (Lit "[BT] RIGHT"); BtPrintln (Lit "RIGHT")])
  | "X"%char | " "%char | "5"%char =>
      (with_state g "STOP", Some Stop,
       [SerialPrintln (Lit "[BT] STOP"); BtPrintln (Lit "STOP")])
  | "+"%char | "="%char =>
      let g := with_speed g (wrap_u8 (Z.min 255 (currentSpeed g + 25))) in
      (g, None,
       [SerialPrint (Fmt "[BT] Speed increased to %d\n" [ArgInt (currentSpeed g)]);
        BtPrint (Fmt "Speed: %d\n" [ArgInt (currentSpeed g)])])
  | "-"%char | "_"%char =>
      let g := with_speed g (wrap_u8 (Z.max 0 (currentSpeed g - 25))) in
      (g, None,
       [SerialPrint (Fmt "[BT] Speed decreased to %d\n" [ArgInt (currentSpeed g)]);
        BtPrint (Fmt "Speed: %d\n" [ArgInt (currentSpeed g)])])
  | "1"%char =>
      (with_speed g 100, None,
       [SerialPrintln (Lit "[BT] Speed set to SLOW (100)");
        BtPrintln (Lit "Speed: SLOW (100)")])
  | "3"%char =>
      (with_speed g 200, None,
       [SerialPrintln (Lit "[BT] Speed set to MEDIUM (200)");
        BtPrintln (Lit "Speed: MEDIUM (200)")])
  | "9"%char =>
      (with_speed g 255, None,
       [SerialPrintln (Lit "[BT] Speed set to FAST (255)");
        BtPrintln (Lit "Speed: FAST (255)")])
  | "H"%char | "?"%char => (g, None, printHelp)
  | "I"%char => (g, None, printStatus env g)
  | "010"%char | "013"%char => (g, None, [])
  | _ =>
      (g, None,
       [SerialPrint (Fmt "[BT] Unknown command: '%c' (0x%02X)\n"
                         [ArgChar cmd; ArgChar cmd]);
        BtPrintln (Lit "Unknown command. Send 'H' for help.")])
  end.

(** [handleBluetoothCommand(cmd)]. *)
Definition handleBluetoothCommand (cmd : ascii) (env : Env) (g : State) : Outcome :=
  let cmd := toupper cmd in
  let '(g, loraCmd, evs) := dispatch cmd env g in
  match loraCmd with
  | Some c =>
      let s := sendLoRaFrame c (currentSpeed g) (currentSpeed g) (env_endPacket env) g in
      mkOutcome (send_state s)
        (evs ++ send_events s ++
         (if send_ok s then []
          else [BtPrintln (Lit "ERROR: LoRa transmission failed!")]))
        [s]
  | None => mkOutcome g evs []
  end.

(** The timeout test of [loop]: an [unsigned long] difference against
    [COMMAND_TIMEOUT], and the comparison of the state string. *)
Definition timeout_due (now : Z) (g : State) : bool :=
  (wrap_u32 (now - lastCommandTime g) >? COMMAND_TIMEOUT)
  && negb (String.eqb (currentState g) "STOP").

(** One pass of [loop()]. *)
Definition loop (inp : LoopInput) (g : State) : Outcome :=
  let o :=
    match bt_byte inp with
    | Some cmd =>
        let o := handleBluetoothCommand cmd (cmd_env inp) g in
        mkOutcome (with_lastCommandTime (out_state o) (millis_cmd inp))
                  (out_events o) (out_sends o)
    | None => mkOutcome g [] []
    end in
  let o :=
    if timeout_due (millis_check inp) (out_state o) then
      let s := sendLoRaFrame Stop 0 0 (endPacket_timeout inp) (out_state o) in
      mkOutcome (with_state (send_state s) "STOP (TIMEOUT)")
        (out_events o ++ send_events s ++
         [SerialPrintln (Lit "[SAFETY] Command timeout - sending STOP via LoRa");
          BtPrintln (Lit "TIMEOUT: Stop command sent")])
        (out_sends o ++ [s])
    else o in
  mkOutcome (out_state o) (out_events o ++ [Delay 10]) (out_sends o).

(** Successive commands handed to [handleBluetoothCommand]. *)
Fixpoint handle_all (cmds : list (ascii * Env)) (g : State) : State :=
  match cmds with
  | [] => g
  | (c, env) :: rest => handle_all rest (out_state (handleBluetoothCommand c env g))
  end.

(** Successive passes of [loop]. *)
Fixpoint run_loop (inps : list LoopInput) (g : State) : State :=
  match inps with
  | [] => g
  | inp :: rest => run_loop rest (out_state (loop inp g))
  end.

(** Every call of [sendLoRaFrame] made during successive passes of [loop],
    in program order. *)
Fixpoint run_loop_sends (inps : list LoopInput) (g : State) : list SendOutcome :=
  match inps with
  | [] => []
  | inp :: rest =>
      out_sends (loop inp g) ++ run_loop_sends rest (out_state (loop inp g))
  end.

End WithCipher.

End Gateway.

(** ** The receiver's hand-over of an accepted frame to the ramp controller *)

Module Receiver.

Import ControlProtocol.

(** Modelled from the spec: the receiver sketch that hands an accepted frame
    to the [Tank] object is missing.  On an accepted command the target
    speeds are set at once, the magnitudes from the frame's speed fields
    ([Tank::setSpeed]) and the signs from the command type (the direction
    method of the same name); Stop sets both to zero and SetSpeed changes the
    magnitudes only. *)
Definition applyCommand (f : ControlFrame) (t : TankShift.Tank) : TankShift.Tank :=
  match command f with
  | Stop => TankShift.stop t
  | Forward => TankShift.forward (TankShift.setSpeed (leftSpeed f) (rightSpeed f) t)
  | Backward => TankShift.backward (TankShift.setSpeed (leftSpeed f) (rightSpeed f) t)
  | Left => TankShift.left (TankShift.setSpeed (leftSpeed f) (rightSpeed f) t)
  | Right => TankShift.right (TankShift.setSpeed (leftSpeed f) (rightSpeed f) t)
  | SetSpeed => TankShift.setSpeed (leftSpeed f) (rightSpeed f) t
  end.

(** Modelled from the spec: the receiver's replay guard is missing.  The
    last accepted sequence number starts as the sentinel for none seen yet,
    under which any sequence is accepted; afterwards a sequence is accepted
    when it is newer, that is when (seq - last) mod 256 lies within 1..127. *)
Definition accept (last : option Z) (seq : Z) : bool :=
  match last with
  | None => true
  | Some l => (1 <=? wrap_u8 (seq - l)) && (wrap_u8 (seq - l) <=? 127)
  end.

(** Modelled from the spec: the receiver's reasons for dropping a frame are
    missing.  A frame is dropped for a decode error (ProtocolMismatch,
    IntegrityError) or as StaleOrDuplicate. *)
Inductive DropReason : Type :=
| Undecodable (e : DecodeError)
| StaleOrDuplicate.

(** Modelled from the spec: the receiver's state is missing.  It holds the
    Ramp State (the [Tank] object of TankShift.cpp), the replay guard's last
    accepted sequence number, and the time of the last accepted command,
    from which the safety timer measures. *)
Record State : Type := mkReceiver {
  tank : TankShift.Tank;
  lastAcceptedSequence : option Z;
  lastAcceptedTime : Z
}.

(** Modelled from the spec: [onFrameReceived] of the receiver is missing.
    The pipeline stops at its first failure: decrypt, decode and validate
    magic and version, verify the checksum, check the sequence against the
    replay guard; only a frame that passes all of it is handed on. *)
Definition onFrameReceived (W : WireContract) (rawBytes : list Z) (r : State)
  : ControlFrame + DropReason :=
  match receiveFrame W rawBytes with
  | Err e => inr (Undecodable e)
  | Ok f =>
      if accept (lastAcceptedSequence r) (sequence f) then inl f
      else inr StaleOrDuplicate
  end.

(** Modelled from the spec: the receiver's control loop is missing.  What
    the environment hands one pass of it: the answer of
    [receiveIfAvailable()] and the reading of the millisecond clock. *)
Record PassInput : Type := mkPassInput {
  rx : option (list Z);
  now : Z
}.

(** Modelled from the spec: the receiver's control loop is missing.  One
    pass of the single control loop.  A frame that is available goes
    through [onFrameReceived]; an accepted one sets the targets, the replay
    guard's state and the time of the last accepted command, a dropped one
    has no effect at all.  Then the safety timer: when more than [timeout]
    milliseconds have passed since the last accepted command, both targets
    are forced to zero ([Tank::stop]).  Then the ramp tick ([Tank::update]).
    The clock is the 32-bit millisecond counter the rest of the code uses. *)
Definition pass (W : WireContract) (timeout : Z) (inp : PassInput) (r : State)
  : State * list TankShift.pin_write :=
  let r :=
    match rx inp with
    | Some rawBytes =>
        match onFrameReceived W rawBytes r with
        | inl f => mkReceiver (applyCommand f (tank r)) (Some (sequence f)) (now inp)
        | inr _ => r
        end
    | None => r
    end in
  let r :=
    if wrap_u32 (now inp - lastAcceptedTime r) >? timeout
    then mkReceiver (TankShift.stop (tank r)) (lastAcceptedSequence r) (lastAcceptedTime r)
    else r in
  let '(t, writes) := TankShift.update (now inp) (tank r) in
  (mkReceiver t (lastAcceptedSequence r) (lastAcceptedTime r), writes).

(** Modelled from the spec: the receiver's control loop is missing.
    Successive passes of it. *)
Fixpoint run_passes (W : WireContract) (timeout : Z) (inps : list PassInput)
    (r : State) : State :=
  match inps with
  | [] => r
  | inp :: rest => run_passes W timeout rest (fst (pass W timeout inp r))
  end.

(** Modelled from the spec: the receiver's control loop is missing.  A pass
    in which no command is accepted: the link is silent, or what arrives is
    dropped by [onFrameReceived]. *)
Definition nothing_accepted (W : WireContract) (r : State) (inp : PassInput) : bool :=
  match rx inp with
  | None => true
  | Some rawBytes =>
      match onFrameReceived W rawBytes r with
      | inl _ => false
      | inr _ => true
      end
  end.

End Receiver.

(** * Properties *)

(** ** Fixed-width conversions *)

Lemma wrap_i16_small (z : Z) : is_i16 z -> wrap_i16 z = z.
Proof.
  unfold is_i16, wrap_i16; intros Hz.
  rewrite Z.mod_small by lia. lia.
Qed.

Lemma wrap_u8_small (z : Z) : is_u8 z -> wrap_u8 z = z.
Proof.
  unfold is_u8, wrap_u8; intros Hz. apply Z.mod_small; lia.
Qed.

Lemma wrap_u8_range (z : Z) : is_u8 (wrap_u8 z).
Proof.
  unfold is_u8, wrap_u8.
  pose proof (Z.mod_pos_bound z 256 ltac:(lia)). lia.
Qed.

Lemma wrap_u32_small (z : Z) : 0 <= z < 2 ^ 32 -> wrap_u32 z = z.
Proof.
  unfold wrap_u32; intros Hz. apply Z.mod_small; lia.
Qed.

(** ** The ramp controller *)

Module TankShiftSpec.

Import TankShift.

Ltac unwrap_i16 :=
  repeat match goal with
         | |- context [wrap_i16 ?z] => rewrite (wrap_i16_small z) by (unfold is_i16; lia)
         end.

Ltac cmp_cases :=
  repeat match goal with
         | |- context [?a <? ?b] => destruct (Z.ltb_spec a b)
         | |- context [?a >? ?b] => rewrite (Z.gtb_ltb a b)
         end.

Lemma setSpeed_targets (t : Tank) (l r : Z) :
  is_u8 l -> is_u8 r ->
  _targetLeftSpeed (setSpeed l r t) = (if _targetLeftSpeed t <? 0 then - l else l) /\
  _targetRightSpeed (setSpeed l r t) = (if _targetRightSpeed t <? 0 then - r else r).
Proof.
  unfold is_u8; intros Hl Hr; unfold setSpeed; simpl.
  rewrite (wrap_i16_small l), (wrap_i16_small r) by (unfold is_i16; lia).
  rewrite (wrap_i16_small (- l)), (wrap_i16_small (- r)) by (unfold is_i16; lia).
  split; reflexivity.
Qed.

Lemma setSpeed_in_range (t : Tank) (l r : Z) :
  is_u8 l -> is_u8 r -> speeds_in_range t -> speeds_in_range (setSpeed l r t).
Proof.
  intros Hl Hr Ht.
  destruct (setSpeed_targets t l r Hl Hr) as [HL HR].
  unfold speeds_in_range in *; rewrite HL, HR.
  unfold is_u8 in *; simpl.
  destruct (_targetLeftSpeed t <? 0), (_targetRightSpeed t <? 0); lia.
Qed.

Lemma direction_in_range (t : Tank) :
  speeds_in_range t ->
  speeds_in_range (forward t) /\ speeds_in_range (backward t) /\
  speeds_in_range (left t) /\ speeds_in_range (right t) /\
  speeds_in_range (stop t).
Proof.
  unfold speeds_in_range; intros Ht; simpl.
  unwrap_i16. lia.
Qed.

Lemma new_in_range (a b c d e f : Z) : speeds_in_range (Tank_new a b c d e f).
Proof. unfold speeds_in_range; simpl; lia. Qed.

Lemma update_due (now : Z) (t : Tank) :
  ramp_due now t = true ->
  (wrap_u32 (now - _lastRampTime t) <? _rampInterval t) = false.
Proof.
  unfold ramp_due; intros H. apply negb_true_iff in H. exact H.
Qed.

Lemma update_keeps_targets (now : Z) (t : Tank) :
  _targetLeftSpeed (fst (update now t)) = _targetLeftSpeed t /\
  _targetRightSpeed (fst (update now t)) = _targetRightSpeed t /\
  _rampStep (fst (update now t)) = _rampStep t /\
  _rampInterval (fst (update now t)) = _rampInterval t.
Proof.
  unfold update.
  destruct (wrap_u32 (now - _lastRampTime t) <? _rampInterval t); simpl; auto.
Qed.

Lemma update_in_range (now : Z) (t : Tank) :
  speeds_in_range t -> speeds_in_range (fst (update now t)).
Proof.
  unfold speeds_in_range, update; intros Ht.
  destruct (wrap_u32 (now - _lastRampTime t) <? _rampInterval t); simpl; [exact Ht|].
  cmp_cases; unwrap_i16; lia.
Qed.

Lemma setRamp_in_range (t : Tank) (step interval : Z) :
  is_u8 step -> speeds_in_range t -> speeds_in_range (setRamp step interval t).
Proof.
  unfold is_u8, speeds_in_range; simpl; intros Hs Ht. lia.
Qed.

(** Every state the object can reach keeps its speed fields within the PWM
    range, which is the hypothesis of the ramp theorem below. *)
Lemma reachable_in_range (t : Tank) : reachable t -> speeds_in_range t.
Proof.
  induction 1.
  - apply new_in_range.
  - apply setRamp_in_range; assumption.
  - apply setSpeed_in_range; assumption.
  - apply direction_in_range; assumption.
  - apply direction_in_range; assumption.
  - apply direction_in_range; assumption.
  - apply direction_in_range; assumption.
  - apply direction_in_range; assumption.
  - apply update_in_range; assumption.
Qed.

(** C1. On an accepted command the target speeds are set by the call itself:
    the magnitudes are the frame's speed fields and the signs follow the
    command type.  Forward gives (+l, +r), Backward (-l, -r), Left (-l, +r),
    Right (+l, -r) and Stop (0, 0), whatever the state before and whatever
    the sequence number; the current speeds are not touched.  In particular
    Left with speeds 150 and 150 gives the targets (-150, +150). *)
Theorem accepted_command_sets_targets (t : Tank) (l r seq : Z) :
  is_u8 l -> is_u8 r ->
  let accepted cmd := Receiver.applyCommand (ControlProtocol.mkFrame cmd l r seq) t in
  targets (accepted ControlProtocol.Forward) = (l, r) /\
  targets (accepted ControlProtocol.Backward) = (- l, - r) /\
  targets (accepted ControlProtocol.Left) = (- l, r) /\
  targets (accepted ControlProtocol.Right) = (l, - r) /\
  targets (accepted ControlProtocol.Stop) = (0, 0) /\
  (forall cmd, _currentLeftSpeed (accepted cmd) = _currentLeftSpeed t /\
               _currentRightSpeed (accepted cmd) = _currentRightSpeed t) /\
  (l = 150 -> r = 150 -> targets (accepted ControlProtocol.Left) = (-150, 150)).
Proof.
  intros Hl Hr accepted.
  destruct (setSpeed_targets t l r Hl Hr) as [HL HR].
  assert (Hdir :
    targets (accepted ControlProtocol.Forward) = (l, r) /\
    targets (accepted ControlProtocol.Backward) = (- l, - r) /\
    targets (accepted ControlProtocol.Left) = (- l, r) /\
    targets (accepted ControlProtocol.Right) = (l, - r) /\
    targets (accepted ControlProtocol.Stop) = (0, 0)).
  { unfold accepted, Receiver.applyCommand, targets; cbn [ControlProtocol.command
      ControlProtocol.leftSpeed ControlProtocol.rightSpeed].
    unfold forward, backward, left, right, stop, set_targets;
      cbn [_targetLeftSpeed _targetRightSpeed].
    rewrite HL, HR. unfold is_u8 in *.
    destruct (_targetLeftSpeed t <? 0), (_targetRightSpeed t <? 0);
      unwrap_i16;
      repeat split; f_equal; lia. }
  destruct Hdir as (Hf & Hb & Hlt & Hrt & Hs).
  repeat split; auto.
  - destruct cmd; reflexivity.
  - destruct cmd; reflexivity.
  - intros -> ->. exact Hlt.
Qed.

Lemma accepted_command_sets_targets_witness :
  targets (Receiver.applyCommand
             (ControlProtocol.mkFrame ControlProtocol.Left 150 150 7)
             (Tank_new 22 21 25 13 15 14)) = (-150, 150).
Proof.
  refine (proj2 (proj2 (proj2 (proj2 (proj2 (proj2
    (accepted_command_sets_targets (Tank_new 22 21 25 13 15 14) 150 150 7 _ _))))))
    eq_refl eq_refl);
  unfold is_u8; lia.
Defined.

(** C5. [setSpeed] changes each channel's target magnitude to the new value
    and keeps the sign that channel's target has: a negative target stays
    negative, any other target becomes the new magnitude itself.  In
    particular, with the targets at (80, 80) after Forward, [setSpeed] with
    (120, 120) gives the targets (+120, +120). *)
Theorem setSpeed_preserves_sign (t : Tank) (l r : Z) :
  is_u8 l -> is_u8 r ->
  Z.abs (_targetLeftSpeed (setSpeed l r t)) = l /\
  Z.abs (_targetRightSpeed (setSpeed l r t)) = r /\
  (_targetLeftSpeed t < 0 -> _targetLeftSpeed (setSpeed l r t) = - l) /\
  (0 <= _targetLeftSpeed t -> _targetLeftSpeed (setSpeed l r t) = l) /\
  (_targetRightSpeed t < 0 -> _targetRightSpeed (setSpeed l r t) = - r) /\
  (0 <= _targetRightSpeed t -> _targetRightSpeed (setSpeed l r t) = r) /\
  (l = 120 -> r = 120 ->
   targets (setSpeed l r (forward (setSpeed 80 80 t))) = (120, 120)).
Proof.
  intros Hl Hr.
  destruct (setSpeed_targets t l r Hl Hr) as [HL HR].
  rewrite HL, HR. unfold is_u8 in *.
  destruct (Z.ltb_spec (_targetLeftSpeed t) 0), (Z.ltb_spec (_targetRightSpeed t) 0);
    (repeat split; try lia);
    intros -> ->; unfold targets, setSpeed, forward, set_targets; simpl;
    destruct (_targetLeftSpeed t <? 0), (_targetRightSpeed t <? 0); reflexivity.
Qed.

Lemma setSpeed_preserves_sign_witness :
  targets (setSpeed 120 120 (forward (setSpeed 80 80 (Tank_new 22 21 25 13 15 14))))
  = (120, 120).
Proof.
  refine (proj2 (proj2 (proj2 (proj2 (proj2 (proj2
    (setSpeed_preserves_sign (Tank_new 22 21 25 13 15 14) 120 120 _ _))))))
    eq_refl eq_refl);
  unfold is_u8; lia.
Defined.

(** C10. [setSpeed], [forward], [backward], [left], [right] and [stop] write
    the two target fields only: the current speeds, the ramp step, the ramp
    interval, the time of the last ramp tick and the pin numbers are the
    same after each of them. *)
Theorem command_methods_frame (t : Tank) (l r : Z) :
  forall m, In m [setSpeed l r; forward; backward; left; right; stop] ->
    _currentLeftSpeed (m t) = _currentLeftSpeed t /\
    _currentRightSpeed (m t) = _currentRightSpeed t /\
    _rampStep (m t) = _rampStep t /\
    _rampInterval (m t) = _rampInterval t /\
    _lastRampTime (m t) = _lastRampTime t /\
    (_leftIn1 (m t), _leftIn2 (m t), _leftPwm (m t)) =
      (_leftIn1 t, _leftIn2 t, _leftPwm t) /\
    (_rightIn1 (m t), _rightIn2 (m t), _rightPwm (m t)) =
      (_rightIn1 t, _rightIn2 t, _rightPwm t).
Proof.
  intros m Hm. simpl in Hm.
  repeat (destruct Hm as [<- | Hm]; [repeat split; reflexivity|]).
  contradiction.
Qed.

Lemma command_methods_frame_witness :
  _currentLeftSpeed (backward (fst (update 10 (forward (setSpeed 90 90 (Tank_new 22 21 25 13 15 14))))))
  = 10.
Proof.
  refine (eq_trans (proj1 (command_methods_frame
    (fst (update 10 (forward (setSpeed 90 90 (Tank_new 22 21 25 13 15 14)))))
    0 0 backward _)) eq_refl).
  simpl; auto.
Defined.

Lemma drive_levels (t : Tank) (speed : Z) :
  (exists a b,
      driveLeft t speed =
        [DigitalWrite (_leftIn1 t) a; DigitalWrite (_leftIn2 t) b;
         AnalogWrite (_leftPwm t) (Z.abs speed)] /\
      ~ (a = HIGH /\ b = HIGH) /\ (speed = 0 -> a = LOW /\ b = LOW) /\
      (a = HIGH <-> 0 < speed)) /\
  (exists a b,
      driveRight t speed =
        [DigitalWrite (_rightIn1 t) a; DigitalWrite (_rightIn2 t) b;
         AnalogWrite (_rightPwm t) (Z.abs speed)] /\
      ~ (a = HIGH /\ b = HIGH) /\ (speed = 0 -> a = LOW /\ b = LOW) /\
      (a = HIGH <-> 0 < speed)).
Proof.
  unfold driveLeft, driveRight.
  rewrite (Z.gtb_ltb speed 0).
  destruct (Z.ltb_spec 0 speed) as [Hpos | Hnpos];
    [| destruct (Z.ltb_spec speed 0) as [Hneg | Hnneg]].
  - rewrite (Z.abs_eq speed) by lia.
    split; exists HIGH, LOW;
      (split; [reflexivity | split; [intros [_ H]; discriminate H | split; [lia | tauto]]]).
  - rewrite (Z.abs_neq speed) by lia.
    split; exists LOW, HIGH;
      (split; [reflexivity | split; [intros [H _]; discriminate H | split; [lia|]]]);
      (split; [intros H; discriminate H | lia]).
  - assert (speed = 0) as -> by lia. cbn [Z.abs].
    split; exists LOW, LOW;
      (split; [reflexivity | split; [intros [H _]; discriminate H | split; [tauto|]]]);
      (split; [intros H; discriminate H | lia]).
Qed.

(** The direction pins of one channel, [in1] and [in2] distinct, while the
    writes [DigitalWrite in1 a; DigitalWrite in2 b; AnalogWrite pwmPin d]
    are made one after the other on pins that were not both HIGH: they are
    both HIGH only after the first write, and then exactly when [a] is HIGH
    and [in2] was HIGH before. *)
Lemma channel_writes_instants (in1 in2 pwmPin : Z) (a b : level) (d : Z) (p : Pins) :
  in1 <> in2 -> ~ (a = HIGH /\ b = HIGH) ->
  ~ (digital p in1 = HIGH /\ digital p in2 = HIGH) ->
  forall k,
    let pk := apply_writes
                (firstn k [DigitalWrite in1 a; DigitalWrite in2 b; AnalogWrite pwmPin d]) p in
    (digital pk in1 = HIGH /\ digital pk in2 = HIGH) <->
    (k = 1%nat /\ a = HIGH /\ digital p in2 = HIGH).
Proof.
  intros Hne Hab Hp k.
  assert (E12 : (in1 =? in2) = false) by (apply Z.eqb_neq; exact Hne).
  assert (E21 : (in2 =? in1) = false) by (apply Z.eqb_neq; congruence).
  destruct k as [| [| [| k]]]; cbn; rewrite ?firstn_nil; cbn;
    rewrite ?Z.eqb_refl, ?E12, ?E21;
    (split; [intros H | intros (Hk & Ha & H2)]);
    try discriminate Hk; tauto.
Qed.

(** C8. For a signed speed in [-255, 255], [driveLeft] and [driveRight]
    each make three writes: a level on either direction pin of the channel,
    never HIGH on both, and the duty [|speed|] on the channel's PWM pin;
    speed 0 writes LOW on both direction pins and duty 0.  With the two
    direction pins distinct, the pins are therefore not both HIGH once the
    call has returned, and the PWM pin carries [|speed|].  While the call
    runs, on pins that were not both HIGH before it, the two direction pins
    are both HIGH at one instant only: after the first write, when the
    speed is positive and the second direction pin was still HIGH, that is
    on a reversal from backward to forward. *)
Theorem drive_both_high_only_on_reversal (t : Tank) (speed : Z) (p : Pins) :
  -255 <= speed <= 255 ->
  (exists a b,
      driveLeft t speed =
        [DigitalWrite (_leftIn1 t) a; DigitalWrite (_leftIn2 t) b;
         AnalogWrite (_leftPwm t) (Z.abs speed)] /\
      ~ (a = HIGH /\ b = HIGH) /\ (speed = 0 -> a = LOW /\ b = LOW)) /\
  (exists a b,
      driveRight t speed =
        [DigitalWrite (_rightIn1 t) a; DigitalWrite (_rightIn2 t) b;
         AnalogWrite (_rightPwm t) (Z.abs speed)] /\
      ~ (a = HIGH /\ b = HIGH) /\ (speed = 0 -> a = LOW /\ b = LOW)) /\
  (_leftIn1 t <> _leftIn2 t ->
   let p' := apply_writes (driveLeft t speed) p in
   ~ (digital p' (_leftIn1 t) = HIGH /\ digital p' (_leftIn2 t) = HIGH) /\
   pwm p' (_leftPwm t) = Z.abs speed) /\
  (_rightIn1 t <> _rightIn2 t ->
   let p' := apply_writes (driveRight t speed) p in
   ~ (digital p' (_rightIn1 t) = HIGH /\ digital p' (_rightIn2 t) = HIGH) /\
   pwm p' (_rightPwm t) = Z.abs speed) /\
  (_leftIn1 t <> _leftIn2 t ->
   ~ (digital p (_leftIn1 t) = HIGH /\ digital p (_leftIn2 t) = HIGH) ->
   forall k,
     let pk := apply_writes (firstn k (driveLeft t speed)) p in
     (digital pk (_leftIn1 t) = HIGH /\ digital pk (_leftIn2 t) = HIGH) <->
     (k = 1%nat /\ 0 < speed /\ digital p (_leftIn2 t) = HIGH)) /\
  (_rightIn1 t <> _rightIn2 t ->
   ~ (digital p (_rightIn1 t) = HIGH /\ digital p (_rightIn2 t) = HIGH) ->
   forall k,
     let pk := apply_writes (firstn k (driveRight t speed)) p in
     (digital pk (_rightIn1 t) = HIGH /\ digital pk (_rightIn2 t) = HIGH) <->
     (k = 1%nat /\ 0 < speed /\ digital p (_rightIn2 t) = HIGH)).
Proof.
  intros Hs.
  destruct (drive_levels t speed)
    as [(al & bl & El & Hl & Hl0 & Hlpos) (ar & br & Er & Hr & Hr0 & Hrpos)].
  split; [exists al, bl; auto|].
  split; [exists ar, br; auto|].
  assert (Hafter : forall in1 in2 pwmPin a b,
            in1 <> in2 -> ~ (a = HIGH /\ b = HIGH) ->
            let p' := apply_writes
                        [DigitalWrite in1 a; DigitalWrite in2 b;
                         AnalogWrite pwmPin (Z.abs speed)] p in
            ~ (digital p' in1 = HIGH /\ digital p' in2 = HIGH) /\
            pwm p' pwmPin = Z.abs speed).
  { intros in1 in2 pwmPin a b Hne Hab. cbn.
    rewrite !Z.eqb_refl.
    replace (in1 =? in2) with false by (symmetry; apply Z.eqb_neq; exact Hne).
    split; [exact Hab | reflexivity]. }
  split; [intros Hne; rewrite El; apply Hafter; assumption|].
  split; [intros Hne; rewrite Er; apply Hafter; assumption|].
  split.
  - intros Hne Hp k. rewrite El.
    pose proof (channel_writes_instants (_leftIn1 t) (_leftIn2 t) (_leftPwm t)
                  al bl (Z.abs speed) p Hne Hl Hp k) as H.
    cbv zeta in H |- *. rewrite H. rewrite Hlpos. reflexivity.
  - intros Hne Hp k. rewrite Er.
    pose proof (channel_writes_instants (_rightIn1 t) (_rightIn2 t) (_rightPwm t)
                  ar br (Z.abs speed) p Hne Hr Hp k) as H.
    cbv zeta in H |- *. rewrite H. rewrite Hrpos. reflexivity.
Qed.

Lemma drive_both_high_only_on_reversal_witness :
  driveLeft (Tank_new 22 21 25 13 15 14) (-200) =
    [DigitalWrite 22 LOW; DigitalWrite 21 HIGH; AnalogWrite 25 200] /\
  pwm (apply_writes (driveRight (Tank_new 22 21 25 13 15 14) (-200))
                    (mkPins (fun _ => LOW) (fun _ => 0))) 14 = 200 /\
  ~ (digital (apply_writes (firstn 1 (driveLeft (Tank_new 22 21 25 13 15 14) (-200)))
                           (mkPins (fun _ => LOW) (fun _ => 0))) 22 = HIGH /\
     digital (apply_writes (firstn 1 (driveLeft (Tank_new 22 21 25 13 15 14) (-200)))
                           (mkPins (fun _ => LOW) (fun _ => 0))) 21 = HIGH).
Proof.
  pose proof (drive_both_high_only_on_reversal (Tank_new 22 21 25 13 15 14) (-200)
                (mkPins (fun _ => LOW) (fun _ => 0)) ltac:(lia)) as H.
  destruct H as (_ & _ & _ & HR & HL & _).
  split; [reflexivity|].
  split; [exact (proj2 (HR ltac:(simpl; lia)))|].
  intros Hboth.
  apply (proj1 (HL ltac:(simpl; lia) ltac:(simpl; intros [E _]; discriminate E) 1%nat))
    in Hboth.
  destruct Hboth as (_ & Hpos & _). lia.
Defined.

(** C8, as it is worded, does not hold of [driveLeft]: the two direction
    pins of a channel can both be HIGH at the same time.  A new tank is
    given speed 5 and sent backward; the tick at 10 ms drives the left
    channel at -5 and leaves its second direction pin HIGH.  It is then
    sent forward; the tick at 20 ms drives the left channel at +5, and the
    first write of that call raises the first direction pin while the
    second is still HIGH. *)
Lemma drive_both_high_during_reversal :
  let t0 := Tank_new 22 21 25 13 15 14 in
  let p0 := mkPins (fun _ => LOW) (fun _ => 0) in
  let r1 := run_calls [CallSetSpeed 5 5; CallBackward; CallUpdate 10] t0 in
  let p1 := apply_writes (snd r1) p0 in
  let r2 := run_calls [CallForward; CallUpdate 20] (fst r1) in
  (digital p1 22, digital p1 21) = (LOW, HIGH) /\
  _currentLeftSpeed (fst r2) = 5 /\
  snd r2 = driveLeft (fst r2) 5 ++ driveRight (fst r2) 5 /\
  digital (apply_writes (firstn 1 (snd r2)) p1) 22 = HIGH /\
  digital (apply_writes (firstn 1 (snd r2)) p1) 21 = HIGH.
Proof.
  cbv zeta. repeat split; reflexivity.
Qed.

Lemma update_ramped (now : Z) (t : Tank) :
  speeds_in_range t -> ramp_due now t = true ->
  ramped (_currentLeftSpeed t) (_targetLeftSpeed t) (_rampStep t)
         (_currentLeftSpeed (fst (update now t))) /\
  ramped (_currentRightSpeed t) (_targetRightSpeed t) (_rampStep t)
         (_currentRightSpeed (fst (update now t))).
Proof.
  unfold speeds_in_range, ramped; intros Ht Hdue.
  unfold update. rewrite (update_due now t Hdue). simpl.
  split; cmp_cases; unwrap_i16; lia.
Qed.

Lemma all_due_firstn (nows : list Z) :
  forall (k : nat) (t : Tank),
    all_due nows t = true -> all_due (firstn k nows) t = true.
Proof.
  induction nows as [| now rest IH]; intros k t H.
  - destruct k; reflexivity.
  - destruct k as [| k]; [reflexivity|].
    simpl in *. apply andb_true_iff in H. destruct H as [H1 H2].
    rewrite H1. simpl. apply IH. exact H2.
Qed.

(** From 0 towards 100 in steps of 10, on either channel: after [n] elapsed
    ticks the current speed is [10 * n], capped at 100. *)
Lemma run_updates_ramp (nows : list Z) :
  forall (t : Tank) (k : Z),
    0 <= k -> _rampStep t = 10 -> all_due nows t = true ->
    (_targetLeftSpeed t = 100 -> _currentLeftSpeed t = Z.min 100 (10 * k) ->
     _currentLeftSpeed (run_updates nows t)
     = Z.min 100 (10 * (k + Z.of_nat (List.length nows)))) /\
    (_targetRightSpeed t = 100 -> _currentRightSpeed t = Z.min 100 (10 * k) ->
     _currentRightSpeed (run_updates nows t)
     = Z.min 100 (10 * (k + Z.of_nat (List.length nows)))).
Proof.
  induction nows as [| now rest IH]; intros t k Hk Hstep Hdue.
  - simpl. rewrite Z.add_0_r. split; intros _ H; exact H.
  - cbn [all_due] in Hdue. apply andb_true_iff in Hdue. destruct Hdue as [Hnow Hrest].
    destruct (update_keeps_targets now t) as (HtL & HtR & Hst & _).
    assert (Hk' : 0 <= k + 1) by lia.
    rewrite <- Hst in Hstep.
    specialize (IH (fst (update now t)) (k + 1) Hk' Hstep Hrest).
    destruct IH as [IHL IHR].
    rewrite Hst in Hstep.
    cbn [run_updates List.length]. rewrite Nat2Z.inj_succ.
    replace (k + Z.succ (Z.of_nat (List.length rest)))
      with (k + 1 + Z.of_nat (List.length rest)) by lia.
    split; intros Htgt Hcur.
    + apply IHL; [congruence|].
      unfold update. rewrite (update_due now t Hnow).
      cbn [fst _currentLeftSpeed _currentRightSpeed].
      rewrite Htgt, Hcur, Hstep. cmp_cases; unwrap_i16; lia.
    + apply IHR; [congruence|].
      unfold update. rewrite (update_due now t Hnow).
      cbn [fst _currentLeftSpeed _currentRightSpeed].
      rewrite Htgt, Hcur, Hstep. cmp_cases; unwrap_i16; lia.
Qed.

(** C2. On every elapsed ramp tick (a call of [update] at least
    [_rampInterval] milliseconds after the last tick) each channel's current
    speed moves toward its target by at most [_rampStep] and never past the
    target: it either reaches the target or moves the whole step.  In
    particular, from current speed 0 with target 100 and ramp step 10, the
    current speed is [10 * k] after [k] of ten elapsed ticks, so it is never
    above 100 on the way and exactly 100 after the tenth. *)
Theorem update_ramps_without_overshoot :
  (forall (t : Tank) (now : Z),
      speeds_in_range t -> ramp_due now t = true ->
      ramped (_currentLeftSpeed t) (_targetLeftSpeed t) (_rampStep t)
             (_currentLeftSpeed (fst (update now t))) /\
      ramped (_currentRightSpeed t) (_targetRightSpeed t) (_rampStep t)
             (_currentRightSpeed (fst (update now t)))) /\
  (forall (t : Tank) (nows : list Z),
      _rampStep t = 10 -> List.length nows = 10%nat -> all_due nows t = true ->
      (_currentLeftSpeed t = 0 -> _targetLeftSpeed t = 100 ->
       _currentLeftSpeed (run_updates nows t) = 100 /\
       forall k, (k <= 10)%nat ->
         _currentLeftSpeed (run_updates (firstn k nows) t) = 10 * Z.of_nat k /\
         _currentLeftSpeed (run_updates (firstn k nows) t) <= 100) /\
      (_currentRightSpeed t = 0 -> _targetRightSpeed t = 100 ->
       _currentRightSpeed (run_updates nows t) = 100 /\
       forall k, (k <= 10)%nat ->
         _currentRightSpeed (run_updates (firstn k nows) t) = 10 * Z.of_nat k /\
         _currentRightSpeed (run_updates (firstn k nows) t) <= 100)).
Proof.
  split; [intros t now; apply update_ramped|].
  intros t nows Hstep Hlen Hdue.
  assert (Hpre : forall k, (k <= 10)%nat ->
            List.length (firstn k nows) = k /\ all_due (firstn k nows) t = true).
  { intros k Hk. split; [apply firstn_length_le; lia | apply all_due_firstn; exact Hdue]. }
  split; intros Hcur Htgt.
  - split.
    + destruct (run_updates_ramp nows t 0 ltac:(lia) Hstep Hdue) as [H _].
      rewrite H by (rewrite ?Hcur; auto). rewrite Hlen. reflexivity.
    + intros k Hk. destruct (Hpre k Hk) as [Hl Hd].
      destruct (run_updates_ramp (firstn k nows) t 0 ltac:(lia) Hstep Hd) as [H _].
      rewrite H by (rewrite ?Hcur; auto). rewrite Hl. lia.
  - split.
    + destruct (run_updates_ramp nows t 0 ltac:(lia) Hstep Hdue) as [_ H].
      rewrite H by (rewrite ?Hcur; auto). rewrite Hlen. reflexivity.
    + intros k Hk. destruct (Hpre k Hk) as [Hl Hd].
      destruct (run_updates_ramp (firstn k nows) t 0 ltac:(lia) Hstep Hd) as [_ H].
      rewrite H by (rewrite ?Hcur; auto). rewrite Hl. lia.
Qed.

Lemma update_ramps_without_overshoot_witness :
  ramped 95 100 10
    (_currentLeftSpeed (fst (update 40
       (mkTank 22 21 25 13 15 14 100 (-100) 95 (-95) 10 10 20)))) /\
  _currentLeftSpeed
    (run_updates [10; 20; 30; 40; 50; 60; 70; 80; 90; 100]
       (forward (setSpeed 100 100 (Tank_new 22 21 25 13 15 14)))) = 100.
Proof.
  split.
  - refine (proj1 (proj1 update_ramps_without_overshoot
      (mkTank 22 21 25 13 15 14 100 (-100) 95 (-95) 10 10 20) 40 _ _)).
    + unfold speeds_in_range; simpl; lia.
    + reflexivity.
  - refine (proj1 (proj1 (proj2 update_ramps_without_overshoot
      (forward (setSpeed 100 100 (Tank_new 22 21 25 13 15 14)))
      [10; 20; 30; 40; 50; 60; 70; 80; 90; 100] _ _ _) _ _));
    reflexivity.
Defined.

End TankShiftSpec.

(** ** Codec and cipher layer *)

Module ControlProtocolSpec.

Import ControlProtocol.

Lemma u32_bytes_round_trip (w : Z) :
  0 <= w < 2 ^ 32 -> u32_of_bytes (u32_bytes w) = w.
Proof.
  intros Hw. unfold u32_bytes, u32_of_bytes.
  change 255 with (Z.ones 8).
  rewrite <- (Z.mod_small w (2 ^ 32)) at 5 by lia.
  rewrite <- (Z.land_ones w 32) by lia.
  Z.bitblast.
Qed.

Lemma wrap_u32_range (z : Z) : 0 <= wrap_u32 z < 2 ^ 32.
Proof. unfold wrap_u32. apply Z.mod_pos_bound. lia. Qed.

Lemma xor_bytes_involutive (a : list Z) :
  forall b, xor_bytes a (xor_bytes a b) = b.
Proof.
  induction a as [| x a IH]; intros [| y b]; simpl; try reflexivity.
  rewrite IH, <- Z.lxor_assoc, Z.lxor_nilpotent, Z.lxor_0_l. reflexivity.
Qed.

Lemma xor_bytes_length (a : list Z) :
  forall b, List.length (xor_bytes a b) = List.length b.
Proof.
  induction a as [| x a IH]; intros [| y b]; simpl; try reflexivity.
  rewrite IH. reflexivity.
Qed.

Lemma command_code_round_trip (c : Command) :
  command_of_code (command_code c) = Some c.
Proof. destruct c; reflexivity. Qed.

Lemma encode_length (W : WireContract) (f : ControlFrame) :
  List.length (encode W f) = 16%nat.
Proof. reflexivity. Qed.

(** The codec alone: a frame decodes to itself. *)
Lemma decode_encode (W : WireContract) (f : ControlFrame) :
  decode W (encode W f) = Ok f.
Proof.
  destruct f as [c l r s].
  unfold encode, frame_body, u32_bytes, decode.
  cbn [app command leftSpeed rightSpeed sequence].
  rewrite !Z.eqb_refl. cbn [andb negb].
  fold (u32_bytes (wrap_u32 (checksum W
         [wrap_u8 (kMagic W); wrap_u8 (kVersion W); command_code c; l; r; s;
          0; 0; 0; 0; 0; 0]))).
  rewrite u32_bytes_round_trip by apply wrap_u32_range.
  rewrite Z.eqb_refl. cbn [negb].
  rewrite command_code_round_trip. reflexivity.
Qed.

(** The cipher layer alone: decrypting an encrypted frame gives back the
    encoded plaintext. *)
Lemma decrypt_encrypt (W : WireContract) (f : ControlFrame) :
  cipher_invertible W ->
  exists ct, encryptFrame W f kFrameSize = Some ct /\
             decryptFrame W ct = Some (encode W f).
Proof.
  intros Hinv.
  unfold encryptFrame. rewrite Z.eqb_refl.
  eexists; split; [reflexivity|].
  destruct (Hinv (xor_bytes (kIv W) (encode W f))) as [Hdec Hlen].
  { rewrite xor_bytes_length. apply encode_length. }
  unfold decryptFrame. rewrite Hlen. cbn [Z.of_nat kFrameSize Z.eqb Pos.of_succ_nat].
  change (Z.of_nat 16 =? kFrameSize) with true. cbn iota.
  rewrite Hdec, xor_bytes_involutive. reflexivity.
Qed.

Lemma sample_wire_invertible : cipher_invertible sample_wire.
Proof.
  intros blk Hlen. cbn [sample_wire block_encrypt block_decrypt kKey].
  split; [apply xor_bytes_involutive | rewrite xor_bytes_length; exact Hlen].
Qed.

(** C4. For every command and every left speed, right speed and sequence
    number in 0..255, building the frame, encoding and encrypting it, then
    decrypting and decoding the ciphertext gives back the same command,
    speeds and sequence number.  This holds for every wire contract (magic,
    version, checksum, key, initialisation vector) whose block cipher is a
    keyed permutation. *)
Theorem frame_round_trip (W : WireContract) (c : Command) (l r s : Z) :
  cipher_invertible W -> is_u8 l -> is_u8 r -> is_u8 s ->
  exists ct,
    encryptFrame W (initFrame c l r s) kFrameSize = Some ct /\
    receiveFrame W ct = Ok (mkFrame c l r s).
Proof.
  intros Hinv Hl Hr Hs.
  destruct (decrypt_encrypt W (initFrame c l r s) Hinv) as (ct & Henc & Hdec).
  exists ct. split; [exact Henc|].
  unfold receiveFrame. rewrite Hdec, decode_encode.
  unfold initFrame. rewrite !wrap_u8_small by assumption. reflexivity.
Qed.

Lemma frame_round_trip_witness :
  exists ct,
    encryptFrame sample_wire (initFrame Left 150 150 7) kFrameSize = Some ct /\
    receiveFrame sample_wire ct = Ok (mkFrame Left 150 150 7).
Proof.
  apply (frame_round_trip sample_wire Left 150 150 7 sample_wire_invertible);
    unfold is_u8; lia.
Defined.

End ControlProtocolSpec.

(** ** The gateway *)

Module GatewaySpec.

Import ControlProtocol Gateway.

Lemma wrap_u8_add_l (a b : Z) : wrap_u8 (wrap_u8 a + b) = wrap_u8 (a + b).
Proof. unfold wrap_u8. apply Zplus_mod_idemp_l. Qed.

Lemma wrap_u8_idem (a : Z) : wrap_u8 (wrap_u8 a) = wrap_u8 a.
Proof. unfold wrap_u8. apply Z.mod_mod. lia. Qed.

(** The [switch] leaves the sequence counter and the command time alone. *)
Lemma dispatch_keeps_counter (c : ascii) (env : Env) (g : State) :
  sequenceCounter (fst (fst (dispatch c env g))) = sequenceCounter g /\
  lastCommandTime (fst (fst (dispatch c env g))) = lastCommandTime g.
Proof.
  destruct c as [[] [] [] [] [] [] [] []]; split; reflexivity.
Qed.

(** The speed the [switch] leaves behind, case by case. *)
Lemma dispatch_speed (c : ascii) (env : Env) (g : State) :
  let v := currentSpeed g in
  let v' := currentSpeed (fst (fst (dispatch c env g))) in
  (c = "+"%char \/ c = "="%char -> v' = wrap_u8 (Z.min 255 (v + 25))) /\
  (c = "-"%char \/ c = "_"%char -> v' = wrap_u8 (Z.max 0 (v - 25))) /\
  (c = "1"%char -> v' = 100) /\
  (c = "3"%char -> v' = 200) /\
  (c = "9"%char -> v' = 255) /\
  (~ In c ["+"; "="; "-"; "_"; "1"; "3"; "9"]%char -> v' = v).
Proof.
  destruct c as [[] [] [] [] [] [] [] []]; cbv zeta; repeat split;
    try (intros [H | H]; solve [discriminate H | reflexivity]);
    try (intros H; solve [discriminate H | reflexivity]);
    intros H; solve [reflexivity | exfalso; apply H; simpl; auto 10].
Qed.

Lemma toupper_fixes (c : ascii) :
  In c ["+"; "="; "-"; "_"; "1"; "3"; "9"]%char -> toupper c = c.
Proof.
  simpl. intros H.
  repeat (destruct H as [<- | H]; [reflexivity|]). contradiction.
Qed.

Lemma toupper_outside (c : ascii) :
  ~ In c ["+"; "="; "-"; "_"; "1"; "3"; "9"]%char ->
  ~ In (toupper c) ["+"; "="; "-"; "_"; "1"; "3"; "9"]%char.
Proof.
  destruct c as [[] [] [] [] [] [] [] []]; intros H; exact H || (simpl; intuition discriminate).
Qed.

Section WithCipher.

Variable encryptFrame : ControlFrame -> Z -> option (list Z).

Lemma sendLoRaFrame_state (cmd : Command) (l r ep : Z) (g : State) :
  let s := sendLoRaFrame encryptFrame cmd l r ep g in
  send_state s = with_sequenceCounter g (wrap_u8 (sequenceCounter g + 1)) /\
  send_frame s = initFrame cmd l r (sequenceCounter g).
Proof.
  unfold sendLoRaFrame.
  destruct (encryptFrame (initFrame cmd l r (sequenceCounter g)) kFrameSize);
    split; reflexivity.
Qed.

Lemma handle_speed (c : ascii) (env : Env) (g : State) :
  currentSpeed (out_state (handleBluetoothCommand encryptFrame c env g))
  = currentSpeed (fst (fst (dispatch (toupper c) env g))).
Proof.
  unfold handleBluetoothCommand.
  destruct (dispatch (toupper c) env g) as [[g1 [cmd |]] evs]; cbn [fst out_state].
  - destruct (sendLoRaFrame_state cmd (currentSpeed g1) (currentSpeed g1)
                (env_endPacket env) g1) as [-> _]. reflexivity.
  - reflexivity.
Qed.

Lemma handle_speed_in_range (c : ascii) (env : Env) (g : State) :
  is_u8 (currentSpeed g) ->
  is_u8 (currentSpeed (out_state (handleBluetoothCommand encryptFrame c env g))).
Proof.
  intros Hv. rewrite handle_speed.
  destruct (dispatch_speed (toupper c) env g) as (Hp & Hm & H1 & H3 & H9 & Ho).
  destruct (in_dec ascii_dec (toupper c) ["+"; "="; "-"; "_"; "1"; "3"; "9"]%char)
    as [Hin | Hout].
  - simpl in Hin.
    destruct Hin as [E | [E | [E | [E | [E | [E | [E | []]]]]]]]; symmetry in E.
    + rewrite Hp by auto. apply wrap_u8_range.
    + rewrite Hp by auto. apply wrap_u8_range.
    + rewrite Hm by auto. apply wrap_u8_range.
    + rewrite Hm by auto. apply wrap_u8_range.
    + rewrite H1 by auto. unfold is_u8; lia.
    + rewrite H3 by auto. unfold is_u8; lia.
    + rewrite H9 by auto. unfold is_u8; lia.
  - rewrite Ho by exact Hout. exact Hv.
Qed.

(** C9. The gateway's stored speed stays within 0..255 over any sequence of
    [handleBluetoothCommand] inputs.  The value assigned is already in range
    before it is narrowed to eight bits, so nothing wraps: '+' (or '=')
    stores [min 255 (speed + 25)], '-' (or '_') stores [max 0 (speed - 25)],
    '1', '3' and '9' store 100, 200 and 255, and every other input leaves the
    speed as it was. *)
Theorem currentSpeed_stays_in_range :
  (forall (cmds : list (ascii * Env)) (g : State),
      is_u8 (currentSpeed g) ->
      is_u8 (currentSpeed (handle_all encryptFrame cmds g))) /\
  (forall (cmds : list (ascii * Env)),
      is_u8 (currentSpeed (handle_all encryptFrame cmds startup))) /\
  (forall (c : ascii) (env : Env) (g : State),
      is_u8 (currentSpeed g) ->
      let v := currentSpeed g in
      let v' := currentSpeed (out_state (handleBluetoothCommand encryptFrame c env g)) in
      (c = "+"%char \/ c = "="%char -> v' = Z.min 255 (v + 25)) /\
      (c = "-"%char \/ c = "_"%char -> v' = Z.max 0 (v - 25)) /\
      (c = "1"%char -> v' = 100) /\
      (c = "3"%char -> v' = 200) /\
      (c = "9"%char -> v' = 255) /\
      (~ In c ["+"; "="; "-"; "_"; "1"; "3"; "9"]%char -> v' = v)).
Proof.
  assert (Hall : forall cmds g, is_u8 (currentSpeed g) ->
                   is_u8 (currentSpeed (handle_all encryptFrame cmds g))).
  { induction cmds as [| [c env] rest IH]; intros g Hg; simpl.
    - exact Hg.
    - apply IH. apply handle_speed_in_range. exact Hg. }
  split; [exact Hall|].
  split; [intros cmds; apply Hall; unfold is_u8; simpl; lia|].
  intros c env g Hv v v'. subst v v'. rewrite handle_speed.
  destruct (dispatch_speed (toupper c) env g) as (Hp & Hm & H1 & H3 & H9 & Ho).
  unfold is_u8 in Hv.
  repeat split.
  - intros Hc. rewrite toupper_fixes in Hp |- * by (simpl; intuition (subst; auto 10)).
    rewrite (Hp Hc). apply wrap_u8_small. unfold is_u8. lia.
  - intros Hc. rewrite toupper_fixes in Hm |- * by (simpl; intuition (subst; auto 10)).
    rewrite (Hm Hc). apply wrap_u8_small. unfold is_u8. lia.
  - intros Hc. rewrite toupper_fixes in H1 |- * by (simpl; intuition (subst; auto 10)). auto.
  - intros Hc. rewrite toupper_fixes in H3 |- * by (simpl; intuition (subst; auto 10)). auto.
  - intros Hc. rewrite toupper_fixes in H9 |- * by (simpl; intuition (subst; auto 10)). auto.
  - intros Hc. apply Ho. apply toupper_outside. exact Hc.
Qed.

(** C7. [sendLoRaFrame] returns true exactly when encryption succeeded and
    [LoRa.endPacket()] returned 1; it returns false when encryption fails
    and when the transport refuses the packet.  When encryption fails, the
    only call made is the console message: nothing is handed to the
    transport.  When it succeeds, the one buffer written to the transport is
    the whole buffer the cipher layer filled. *)
Theorem sendLoRaFrame_reports_failure
    (cmd : Command) (l r ep : Z) (g : State) :
  let frame := initFrame cmd l r (sequenceCounter g) in
  let s := sendLoRaFrame encryptFrame cmd l r ep g in
  (send_ok s = true <->
   (exists buf, encryptFrame frame kFrameSize = Some buf) /\ ep = 1) /\
  (encryptFrame frame kFrameSize = None ->
   send_ok s = false /\
   send_events s = [SerialPrintln (Lit "[LoRa] Encryption failed")]) /\
  (forall buf, encryptFrame frame kFrameSize = Some buf ->
   send_ok s = (ep =? 1) /\
   (forall b, In (LoRaWrite b) (send_events s) <-> b = buf)).
Proof.
  cbv zeta. unfold sendLoRaFrame.
  destruct (encryptFrame (initFrame cmd l r (sequenceCounter g)) kFrameSize)
    as [encrypted |]; cbn [send_ok send_events].
  - split; [| split].
    + rewrite Z.eqb_eq. split.
      * intros ->. split; [eauto | reflexivity].
      * intros [_ H]. exact H.
    + intros H. discriminate H.
    + intros buf H. injection H as <-. split; [reflexivity|].
      intros b. destruct (ep =? 1); simpl; split.
      * intros [H|[H|[H|[H|[H|[H|[]]]]]]]; try discriminate H. congruence.
      * intros ->. auto.
      * intros [H|[H|[H|[H|[H|[H|[]]]]]]]; try discriminate H. congruence.
      * intros ->. auto.
  - split; [| split].
    + split; [intros H; discriminate H | intros [[buf H] _]; discriminate H].
    + intros _. split; reflexivity.
    + intros buf H. discriminate H.
Qed.

(** The frames one pass of [loop] builds carry the counter values in order,
    and the counter ends up advanced by their number. *)
Lemma loop_sequence (inp : LoopInput) (g : State) :
  let o := loop encryptFrame inp g in
  sequenceCounter (out_state o)
  = (if Nat.eqb (List.length (out_sends o)) 0 then sequenceCounter g
     else wrap_u8 (sequenceCounter g + Z.of_nat (List.length (out_sends o)))) /\
  (forall k s, nth_error (out_sends o) k = Some s ->
     sequence (send_frame s) = wrap_u8 (sequenceCounter g + Z.of_nat k)).
Proof.
  cbv zeta. unfold loop, handleBluetoothCommand.
  destruct (bt_byte inp) as [c |].
  - destruct (dispatch_keeps_counter (toupper c) (cmd_env inp) g) as [Hseq _].
    destruct (dispatch (toupper c) (cmd_env inp) g) as [[g1 [cmd |]] evs];
      cbn [fst] in Hseq; cbn [out_state out_sends out_events].
    + destruct (sendLoRaFrame_state cmd (currentSpeed g1) (currentSpeed g1)
                  (env_endPacket (cmd_env inp)) g1) as [Hst Hfr].
      remember (sendLoRaFrame encryptFrame cmd (currentSpeed g1) (currentSpeed g1)
                  (env_endPacket (cmd_env inp)) g1) as s1.
      destruct (timeout_due (millis_check inp) (with_lastCommandTime (send_state s1) (millis_cmd inp)));
        cbn [out_state out_sends out_events].
      * destruct (sendLoRaFrame_state Stop 0 0 (endPacket_timeout inp)
                    (with_lastCommandTime (send_state s1) (millis_cmd inp))) as [Hst2 Hfr2].
        remember (sendLoRaFrame encryptFrame Stop 0 0 (endPacket_timeout inp)
                    (with_lastCommandTime (send_state s1) (millis_cmd inp))) as s2.
        rewrite Hst2, Hst. cbn. rewrite Hseq.
        split; [rewrite wrap_u8_add_l; f_equal; lia|].
        intros [| [| k]] s H; cbn in H; try discriminate H.
        -- injection H as <-. rewrite Hfr. cbn. rewrite Hseq, Z.add_0_r. reflexivity.
        -- injection H as <-. rewrite Hfr2, Hst. cbn. rewrite Hseq.
           apply wrap_u8_idem.
        -- destruct k; discriminate H.
      * rewrite Hst. cbn. rewrite Hseq. split; [reflexivity|].
        intros [| k] s H; cbn in H.
        -- injection H as <-. rewrite Hfr. cbn. rewrite Hseq, Z.add_0_r. reflexivity.
        -- destruct k; discriminate H.
    + destruct (timeout_due (millis_check inp) (with_lastCommandTime g1 (millis_cmd inp)));
        cbn [out_state out_sends out_events].
      * destruct (sendLoRaFrame_state Stop 0 0 (endPacket_timeout inp)
                    (with_lastCommandTime g1 (millis_cmd inp))) as [Hst2 Hfr2].
        remember (sendLoRaFrame encryptFrame Stop 0 0 (endPacket_timeout inp)
                    (with_lastCommandTime g1 (millis_cmd inp))) as s2.
        rewrite Hst2. cbn. rewrite Hseq. split; [reflexivity|].
        intros [| k] s H; cbn in H.
        -- injection H as <-. rewrite Hfr2. cbn. rewrite Hseq, Z.add_0_r. reflexivity.
        -- destruct k; discriminate H.
      * cbn. split; [exact Hseq|]. intros [| k] s H; discriminate H.
  - cbn [out_state out_sends out_events].
    destruct (timeout_due (millis_check inp) g); cbn [out_state out_sends out_events].
    + destruct (sendLoRaFrame_state Stop 0 0 (endPacket_timeout inp) g) as [Hst2 Hfr2].
      remember (sendLoRaFrame encryptFrame Stop 0 0 (endPacket_timeout inp) g) as s2.
      rewrite Hst2. cbn. split; [reflexivity|].
      intros [| k] s H; cbn in H.
      * injection H as <-. rewrite Hfr2. cbn. rewrite Z.add_0_r. reflexivity.
      * destruct k; discriminate H.
    + cbn. split; [reflexivity|]. intros [| k] s H; discriminate H.
Qed.

Lemma loop_counter_mod (inp : LoopInput) (g : State) :
  wrap_u8 (sequenceCounter (out_state (loop encryptFrame inp g)))
  = wrap_u8 (sequenceCounter g
             + Z.of_nat (List.length (out_sends (loop encryptFrame inp g)))).
Proof.
  destruct (loop_sequence inp g) as [H _]. cbv zeta in H. rewrite H.
  destruct (List.length (out_sends (loop encryptFrame inp g))) as [| n]; cbn [Nat.eqb].
  - rewrite Z.add_0_r. reflexivity.
  - apply wrap_u8_idem.
Qed.

Lemma run_loop_sequence (inps : list LoopInput) :
  forall (g : State) (k : nat) (s : SendOutcome),
    nth_error (run_loop_sends encryptFrame inps g) k = Some s ->
    sequence (send_frame s) = wrap_u8 (sequenceCounter g + Z.of_nat k).
Proof.
  induction inps as [| inp rest IH]; intros g k s H; cbn [run_loop_sends] in H.
  - destruct k; discriminate H.
  - destruct (Nat.lt_ge_cases k (List.length (out_sends (loop encryptFrame inp g))))
      as [Hlt | Hge].
    + rewrite nth_error_app1 in H by exact Hlt.
      destruct (loop_sequence inp g) as [_ Hk]. apply (Hk k s H).
    + rewrite nth_error_app2 in H by exact Hge.
      rewrite (IH _ _ _ H).
      rewrite <- wrap_u8_add_l, loop_counter_mod, wrap_u8_add_l.
      f_equal. lia.
Qed.

(** C6. Sequence numbers come from the one 8-bit counter
    [sequenceCounter], read and then incremented by every call of
    [sendLoRaFrame].  Of two consecutive calls the second frame carries the
    first frame's sequence plus 1 modulo 256.  Over any run of [loop] from
    the start-up state, the [k]-th frame built (counting from 0) carries
    [k mod 256]: the first carries 0 and each later one its predecessor's
    sequence plus 1 modulo 256. *)
Theorem sequence_counter_increments :
  (forall (c1 : Command) (l1 r1 e1 : Z) (c2 : Command) (l2 r2 e2 : Z) (g : State),
      let first := sendLoRaFrame encryptFrame c1 l1 r1 e1 g in
      let second := sendLoRaFrame encryptFrame c2 l2 r2 e2 (send_state first) in
      sequence (send_frame second) = (sequence (send_frame first) + 1) mod 256) /\
  (forall (c : Command) (l r e : Z),
      sequence (send_frame (sendLoRaFrame encryptFrame c l r e startup)) = 0) /\
  (forall (inps : list LoopInput) (k : nat) (s : SendOutcome),
      nth_error (run_loop_sends encryptFrame inps startup) k = Some s ->
      sequence (send_frame s) = Z.of_nat k mod 256) /\
  (forall (inps : list LoopInput) (k : nat) (s1 s2 : SendOutcome),
      nth_error (run_loop_sends encryptFrame inps startup) k = Some s1 ->
      nth_error (run_loop_sends encryptFrame inps startup) (S k) = Some s2 ->
      sequence (send_frame s2) = (sequence (send_frame s1) + 1) mod 256).
Proof.
  split; [| split; [| split]].
  - intros c1 l1 r1 e1 c2 l2 r2 e2 g first second. subst first second.
    destruct (sendLoRaFrame_state c1 l1 r1 e1 g) as [Hst1 Hfr1].
    destruct (sendLoRaFrame_state c2 l2 r2 e2
                (send_state (sendLoRaFrame encryptFrame c1 l1 r1 e1 g))) as [_ Hfr2].
    rewrite Hfr2, Hfr1, Hst1. cbn.
    rewrite wrap_u8_idem. symmetry. apply (wrap_u8_add_l (sequenceCounter g) 1).
  - intros c l r e.
    destruct (sendLoRaFrame_state c l r e startup) as [_ Hfr].
    rewrite Hfr. reflexivity.
  - intros inps k s H. rewrite (run_loop_sequence inps startup k s H). reflexivity.
  - intros inps k s1 s2 H1 H2.
    rewrite (run_loop_sequence inps startup k s1 H1).
    rewrite (run_loop_sequence inps startup (S k) s2 H2).
    cbn [startup sequenceCounter]. rewrite !Z.add_0_l, Nat2Z.inj_succ.
    change (wrap_u8 (Z.succ (Z.of_nat k)) = wrap_u8 (wrap_u8 (Z.of_nat k) + 1)).
    rewrite wrap_u8_add_l. reflexivity.
Qed.

End WithCipher.

Lemma currentSpeed_stays_in_range_witness :
  currentSpeed (out_state (handleBluetoothCommand
                   (ControlProtocol.encryptFrame sample_wire) "+"
                   (mkEnv 1 0 0) (with_speed startup 250))) = 255.
Proof.
  refine (proj1 (proj2 (proj2 (currentSpeed_stays_in_range
            (ControlProtocol.encryptFrame sample_wire)))
            "+"%char (mkEnv 1 0 0) (with_speed startup 250) _) _).
  - unfold is_u8; simpl; lia.
  - left; reflexivity.
Defined.

Lemma sendLoRaFrame_reports_failure_witness :
  send_ok (sendLoRaFrame (fun _ _ => None) Forward 200 200 1 startup) = false /\
  send_events (sendLoRaFrame (fun _ _ => None) Forward 200 200 1 startup)
  = [SerialPrintln (Lit "[LoRa] Encryption failed")].
Proof.
  exact (proj1 (proj2 (sendLoRaFrame_reports_failure
           (fun _ _ => None) Forward 200 200 1 startup)) eq_refl).
Defined.

Lemma sequence_counter_increments_witness :
  exists s,
    nth_error (run_loop_sends (ControlProtocol.encryptFrame sample_wire)
                 [mkLoopInput (Some "W"%char) (mkEnv 1 0 0) 5 5 1;
                  mkLoopInput (Some "A"%char) (mkEnv 0 0 0) 900 900 1;
                  mkLoopInput None (mkEnv 1 0 0) 0 3000 1]
                 startup) 2 = Some s /\
    sequence (send_frame s) = 2.
Proof.
  eexists. split; [vm_compute; reflexivity|].
  refine (proj1 (proj2 (proj2 (sequence_counter_increments
            (ControlProtocol.encryptFrame sample_wire))))
            [mkLoopInput (Some "W"%char) (mkEnv 1 0 0) 5 5 1;
             mkLoopInput (Some "A"%char) (mkEnv 0 0 0) 900 900 1;
             mkLoopInput None (mkEnv 1 0 0) 0 3000 1]
            2%nat _ _).
  vm_compute; reflexivity.
Defined.

End GatewaySpec.

(** ** The ramp controller over whole runs *)

Module TankShiftRun.

Import TankShift.

Ltac unwrap_i16 :=
  repeat match goal with
         | |- context [wrap_i16 ?z] =>
             lazymatch z with
             | context [wrap_i16 _] => fail
             | _ => rewrite (wrap_i16_small z) by (unfold is_i16; lia)
             end
         end.

Ltac cmp_cases :=
  repeat match goal with
         | |- context [?a <? ?b] => destruct (Z.ltb_spec a b)
         | |- context [?a >? ?b] => rewrite (Z.gtb_ltb a b)
         end.

Lemma wrap_u32_difference (last d : Z) :
  0 <= d < 2 ^ 32 -> wrap_u32 (wrap_u32 (last + d) - last) = d.
Proof.
  intros Hd. unfold wrap_u32.
  rewrite Zminus_mod_idemp_l.
  replace (last + d - last) with d by lia.
  apply Z.mod_small. exact Hd.
Qed.

(** X1. The interval test of [update] is safe against the wrap-around of
    [millis()]: when the reading is the last tick's time plus [d]
    milliseconds, taken modulo 2^32, the tick is made exactly when
    [d >= _rampInterval].  Before that [update] changes nothing and writes
    nothing; from then on it records the reading as the time of the last
    tick and makes its six pin writes. *)
Theorem update_interval_wrap_safe (t : Tank) (d : Z) :
  0 <= d < 2 ^ 32 ->
  let now := wrap_u32 (_lastRampTime t + d) in
  (ramp_due now t = true <-> _rampInterval t <= d) /\
  (d < _rampInterval t -> update now t = (t, [])) /\
  (_rampInterval t <= d ->
   _lastRampTime (fst (update now t)) = now /\
   List.length (snd (update now t)) = 6%nat).
Proof.
  intros Hd now. subst now.
  unfold ramp_due, update. rewrite (wrap_u32_difference (_lastRampTime t) d Hd).
  destruct (Z.ltb_spec d (_rampInterval t)) as [Hlt | Hge]; cbn [negb].
  - split; [split; [discriminate | lia]|].
    split; [reflexivity | lia].
  - split; [split; [intros _; exact Hge | reflexivity]|].
    split; [lia|]. intros _. cbn [fst snd _lastRampTime].
    split; [reflexivity|].
    rewrite length_app. unfold driveLeft, driveRight.
    repeat match goal with
           | |- context [if ?c then _ else _] => destruct c
           end; reflexivity.
Qed.

Lemma update_interval_wrap_safe_witness :
  ramp_due 5 (mkTank 22 21 25 13 15 14 100 100 0 0 10 10 4294967291) = true /\
  update 3 (mkTank 22 21 25 13 15 14 100 100 0 0 10 10 4294967291)
  = (mkTank 22 21 25 13 15 14 100 100 0 0 10 10 4294967291, []).
Proof.
  split.
  - apply (proj1 (update_interval_wrap_safe
             (mkTank 22 21 25 13 15 14 100 100 0 0 10 10 4294967291) 10
             ltac:(lia))).
    simpl; lia.
  - apply (proj1 (proj2 (update_interval_wrap_safe
             (mkTank 22 21 25 13 15 14 100 100 0 0 10 10 4294967291) 8
             ltac:(lia)))).
    simpl; lia.
Defined.

Lemma do_call_in_range (c : call) (t : Tank) :
  call_well_typed c -> speeds_in_range t -> speeds_in_range (fst (do_call c t)).
Proof.
  destruct c; cbn [do_call fst call_well_typed]; intros Hc Ht.
  - apply TankShiftSpec.setRamp_in_range; tauto.
  - apply TankShiftSpec.setSpeed_in_range; tauto.
  - apply TankShiftSpec.direction_in_range; assumption.
  - apply TankShiftSpec.direction_in_range; assumption.
  - apply TankShiftSpec.direction_in_range; assumption.
  - apply TankShiftSpec.direction_in_range; assumption.
  - apply TankShiftSpec.direction_in_range; assumption.
  - apply TankShiftSpec.update_in_range; assumption.
Qed.

Lemma update_writes_shape (now : Z) (t : Tank) :
  snd (update now t) = [] \/
  snd (update now t)
  = driveLeft t (_currentLeftSpeed (fst (update now t)))
    ++ driveRight t (_currentRightSpeed (fst (update now t))).
Proof.
  unfold update.
  destruct (wrap_u32 (now - _lastRampTime t) <? _rampInterval t);
    [left | right]; reflexivity.
Qed.

Lemma drive_writes_bounded (t : Tank) (sl sr : Z) :
  -255 <= sl <= 255 -> -255 <= sr <= 255 ->
  forall w, In w (driveLeft t sl ++ driveRight t sr) ->
    match w with
    | DigitalWrite p _ =>
        In p [_leftIn1 t; _leftIn2 t; _rightIn1 t; _rightIn2 t]
    | AnalogWrite p duty =>
        In p [_leftPwm t; _rightPwm t] /\ 0 <= duty <= 255
    end.
Proof.
  intros Hl Hr w Hw. apply in_app_or in Hw.
  unfold driveLeft, driveRight in Hw.
  rewrite !Z.gtb_ltb in Hw.
  destruct (Z.ltb_spec 0 sl), (Z.ltb_spec sl 0), (Z.ltb_spec 0 sr), (Z.ltb_spec sr 0);
    cbn [In] in Hw; destruct Hw as [Hw | Hw];
    repeat (destruct Hw as [<- | Hw];
            [cbn [In]; first [solve [auto 10] | split; [auto | lia]]|]);
    contradiction.
Qed.

(** What a write may be for a tank with the given pins: a level on one of
    the four direction pins, or a duty within 0..255 on one of the two PWM
    pins. *)
Lemma update_writes_bounded (now : Z) (t : Tank) :
  speeds_in_range t ->
  forall w, In w (snd (update now t)) ->
    match w with
    | DigitalWrite p _ =>
        In p [_leftIn1 t; _leftIn2 t; _rightIn1 t; _rightIn2 t]
    | AnalogWrite p duty =>
        In p [_leftPwm t; _rightPwm t] /\ 0 <= duty <= 255
    end.
Proof.
  intros Ht w Hw.
  pose proof (TankShiftSpec.update_in_range now t Ht) as (_ & _ & HL & HR & _).
  destruct (update_writes_shape now t) as [E | E]; rewrite E in Hw.
  - destruct Hw.
  - exact (drive_writes_bounded t _ _ HL HR w Hw).
Qed.

Lemma do_call_pins (c : call) (t : Tank) :
  (_leftIn1 (fst (do_call c t)), _leftIn2 (fst (do_call c t)),
   _leftPwm (fst (do_call c t)), _rightIn1 (fst (do_call c t)),
   _rightIn2 (fst (do_call c t)), _rightPwm (fst (do_call c t)))
  = (_leftIn1 t, _leftIn2 t, _leftPwm t, _rightIn1 t, _rightIn2 t, _rightPwm t).
Proof.
  destruct c; try reflexivity.
  cbn [do_call]. unfold update.
  destruct (wrap_u32 (now - _lastRampTime t) <? _rampInterval t); reflexivity.
Qed.

(** X2. Whatever well-typed calls a program makes on a tank whose speed
    fields are within the PWM range (a new tank's are), the pin writes it
    causes stay within the hardware's limits: every level is written to one
    of the tank's four direction pins, every duty is written to one of its
    two PWM pins and lies within 0..255, and the speed fields are still
    within [-255, 255] afterwards. *)
Theorem run_calls_writes_bounded (cs : list call) :
  forall (t : Tank),
    speeds_in_range t -> Forall call_well_typed cs ->
    speeds_in_range (fst (run_calls cs t)) /\
    forall w, In w (snd (run_calls cs t)) ->
      match w with
      | DigitalWrite p _ =>
          In p [_leftIn1 t; _leftIn2 t; _rightIn1 t; _rightIn2 t]
      | AnalogWrite p duty =>
          In p [_leftPwm t; _rightPwm t] /\ 0 <= duty <= 255
      end.
Proof.
  induction cs as [| c rest IH]; intros t Ht Hcs.
  - split; [exact Ht | intros w []].
  - inversion Hcs as [| c' rest' Hc Hrest]; subst.
    pose proof (do_call_in_range c t Hc Ht) as Ht1.
    pose proof (do_call_pins c t) as Hpins.
    specialize (IH (fst (do_call c t)) Ht1 Hrest). destruct IH as [IHr IHw].
    cbn [run_calls].
    destruct (do_call c t) as [t1 ws1] eqn:Ec. cbn [fst] in *.
    destruct (run_calls rest t1) as [t2 ws2] eqn:Er. cbn [fst snd] in *.
    split; [exact IHr|].
    intros w Hw. apply in_app_or in Hw. destruct Hw as [Hw | Hw].
    + destruct c; cbn [do_call] in Ec;
        try (injection Ec as <- <-; destruct Hw).
      pose proof (update_writes_bounded now t Ht w) as Hb.
      rewrite Ec in Hb. exact (Hb Hw).
    + specialize (IHw w Hw).
      injection Hpins as E1 E2 E3 E4 E5 E6.
      rewrite E1, E2, E3, E4, E5, E6 in IHw. exact IHw.
Qed.

Lemma run_calls_writes_bounded_witness :
  Forall (fun w =>
            match w with
            | DigitalWrite p _ => In p [22; 21; 13; 15]
            | AnalogWrite p duty => In p [25; 14] /\ 0 <= duty <= 255
            end)
         (snd (run_calls [CallSetSpeed 255 255; CallBackward; CallUpdate 10;
                          CallUpdate 20; CallRight; CallUpdate 30]
                         (Tank_new 22 21 25 13 15 14))).
Proof.
  apply Forall_forall.
  refine (proj2 (run_calls_writes_bounded
            [CallSetSpeed 255 255; CallBackward; CallUpdate 10;
             CallUpdate 20; CallRight; CallUpdate 30]
            (Tank_new 22 21 25 13 15 14) _ _)).
  - unfold speeds_in_range; simpl; lia.
  - repeat constructor; unfold is_u8; lia.
Defined.

(** One due tick, in closed form. *)
Lemma update_step (now : Z) (t : Tank) :
  speeds_in_range t -> ramp_due now t = true ->
  _currentLeftSpeed (fst (update now t))
  = (if _currentLeftSpeed t <=? _targetLeftSpeed t
     then Z.min (_currentLeftSpeed t + _rampStep t) (_targetLeftSpeed t)
     else Z.max (_currentLeftSpeed t - _rampStep t) (_targetLeftSpeed t)) /\
  _currentRightSpeed (fst (update now t))
  = (if _currentRightSpeed t <=? _targetRightSpeed t
     then Z.min (_currentRightSpeed t + _rampStep t) (_targetRightSpeed t)
     else Z.max (_currentRightSpeed t - _rampStep t) (_targetRightSpeed t)).
Proof.
  unfold speeds_in_range; intros Ht Hdue.
  unfold update. rewrite (TankShiftSpec.update_due now t Hdue).
  cbn [fst _currentLeftSpeed _currentRightSpeed].
  split;
    match goal with
    | |- context [?a <=? ?b] => destruct (Z.leb_spec a b)
    end; cmp_cases; unwrap_i16; lia.
Qed.

Lemma run_updates_closed_form (nows : list Z) :
  forall (t : Tank),
    speeds_in_range t -> all_due nows t = true ->
    let n := Z.of_nat (List.length nows) in
    _currentLeftSpeed (run_updates nows t)
    = (if _currentLeftSpeed t <=? _targetLeftSpeed t
       then Z.min (_currentLeftSpeed t + n * _rampStep t) (_targetLeftSpeed t)
       else Z.max (_currentLeftSpeed t - n * _rampStep t) (_targetLeftSpeed t)) /\
    _currentRightSpeed (run_updates nows t)
    = (if _currentRightSpeed t <=? _targetRightSpeed t
       then Z.min (_currentRightSpeed t + n * _rampStep t) (_targetRightSpeed t)
       else Z.max (_currentRightSpeed t - n * _rampStep t) (_targetRightSpeed t)).
Proof.
  induction nows as [| now rest IH]; intros t Ht Hdue n; subst n.
  - cbn [run_updates List.length Z.of_nat]. rewrite !Z.mul_0_l, !Z.add_0_r, !Z.sub_0_r.
    split;
      match goal with
      | |- context [?a <=? ?b] => destruct (Z.leb_spec a b)
      end; lia.
  - cbn [all_due] in Hdue. apply andb_true_iff in Hdue. destruct Hdue as [Hnow Hrest].
    pose proof (TankShiftSpec.update_in_range now t Ht) as Ht1.
    destruct (TankShiftSpec.update_keeps_targets now t) as (HtL & HtR & Hst & _).
    destruct (update_step now t Ht Hnow) as [HL HR].
    specialize (IH (fst (update now t)) Ht1 Hrest). cbv zeta in IH.
    destruct IH as [IHL IHR].
    cbn [run_updates List.length]. rewrite Nat2Z.inj_succ.
    rewrite IHL, IHR, HtL, HtR, Hst, HL, HR.
    assert (Hs : 0 <= _rampStep t) by (unfold speeds_in_range in Ht; lia).
    assert (Hp : 0 <= Z.of_nat (List.length rest) * _rampStep t)
      by (apply Z.mul_nonneg_nonneg; lia).
    rewrite Z.mul_succ_l.
    remember (Z.of_nat (List.length rest) * _rampStep t) as p.
    split;
      repeat match goal with
             | |- context [?a <=? ?b] => destruct (Z.leb_spec a b)
             end; lia.
Qed.

(** X3. Over a run of elapsed ticks the ramp is linear and then flat: after
    [n] ticks a channel's current speed is its start value moved toward the
    target by [n * _rampStep], stopped at the target.  So the target is
    reached once [n * _rampStep] covers the distance, exactly, and further
    ticks leave the current speed on it. *)
Theorem run_updates_reach_target (t : Tank) (nows : list Z) :
  speeds_in_range t -> all_due nows t = true ->
  let n := Z.of_nat (List.length nows) in
  let t' := run_updates nows t in
  (_currentLeftSpeed t <= _targetLeftSpeed t ->
   _currentLeftSpeed t'
   = Z.min (_currentLeftSpeed t + n * _rampStep t) (_targetLeftSpeed t)) /\
  (_targetLeftSpeed t <= _currentLeftSpeed t ->
   _currentLeftSpeed t'
   = Z.max (_currentLeftSpeed t - n * _rampStep t) (_targetLeftSpeed t)) /\
  (_currentRightSpeed t <= _targetRightSpeed t ->
   _currentRightSpeed t'
   = Z.min (_currentRightSpeed t + n * _rampStep t) (_targetRightSpeed t)) /\
  (_targetRightSpeed t <= _currentRightSpeed t ->
   _currentRightSpeed t'
   = Z.max (_currentRightSpeed t - n * _rampStep t) (_targetRightSpeed t)) /\
  (Z.abs (_targetLeftSpeed t - _currentLeftSpeed t) <= n * _rampStep t ->
   _currentLeftSpeed t' = _targetLeftSpeed t) /\
  (Z.abs (_targetRightSpeed t - _currentRightSpeed t) <= n * _rampStep t ->
   _currentRightSpeed t' = _targetRightSpeed t).
Proof.
  intros Ht Hdue n t'. subst n t'.
  destruct (run_updates_closed_form nows t Ht Hdue) as [HL HR]. cbv zeta in HL, HR.
  rewrite HL, HR.
  assert (Hs : 0 <= _rampStep t) by (unfold speeds_in_range in Ht; lia).
  assert (Hp : 0 <= Z.of_nat (List.length nows) * _rampStep t)
    by (apply Z.mul_nonneg_nonneg; lia).
  remember (Z.of_nat (List.length nows) * _rampStep t) as p.
  repeat split; intros H;
    repeat match goal with
           | |- context [?a <=? ?b] => destruct (Z.leb_spec a b)
           end; lia.
Qed.

Lemma run_updates_reach_target_witness :
  _currentLeftSpeed
    (run_updates [10; 20; 30; 40; 50; 60; 70; 80; 90; 100; 110; 120]
       (mkTank 22 21 25 13 15 14 (-255) 255 50 (-50) 30 10 0)) = -255.
Proof.
  refine (proj1 (proj2 (proj2 (proj2 (proj2 (run_updates_reach_target
            (mkTank 22 21 25 13 15 14 (-255) 255 50 (-50) 30 10 0)
            [10; 20; 30; 40; 50; 60; 70; 80; 90; 100; 110; 120] _ _))))) _).
  - unfold speeds_in_range; simpl; lia.
  - reflexivity.
  - simpl; lia.
Defined.

Lemma update_zero_step (now : Z) (t : Tank) :
  speeds_in_range t -> _rampStep t = 0 ->
  _currentLeftSpeed (fst (update now t)) = _currentLeftSpeed t /\
  _currentRightSpeed (fst (update now t)) = _currentRightSpeed t.
Proof.
  unfold speeds_in_range; intros Ht Hs. unfold update.
  destruct (wrap_u32 (now - _lastRampTime t) <? _rampInterval t);
    [split; reflexivity|].
  cbn [fst _currentLeftSpeed _currentRightSpeed]. rewrite Hs.
  split; cmp_cases; unwrap_i16; lia.
Qed.

(** X4. A ramp step of 0 freezes the motors: after [setRamp(0, interval)]
    no number of calls of [update], at whatever times, changes either
    current speed, so a target that differs from the current speed is never
    reached. *)
Theorem zero_ramp_step_freezes (t : Tank) (interval : Z) (nows : list Z) :
  speeds_in_range t ->
  _currentLeftSpeed (run_updates nows (setRamp 0 interval t)) = _currentLeftSpeed t /\
  _currentRightSpeed (run_updates nows (setRamp 0 interval t)) = _currentRightSpeed t.
Proof.
  intros Ht.
  assert (Hgen : forall nows t0, speeds_in_range t0 -> _rampStep t0 = 0 ->
            _currentLeftSpeed (run_updates nows t0) = _currentLeftSpeed t0 /\
            _currentRightSpeed (run_updates nows t0) = _currentRightSpeed t0).
  { clear. induction nows as [| now rest IH]; intros t0 Ht0 Hs0.
    - split; reflexivity.
    - cbn [run_updates].
      destruct (update_zero_step now t0 Ht0 Hs0) as [HL HR].
      destruct (TankShiftSpec.update_keeps_targets now t0) as (_ & _ & Hst & _).
      destruct (IH (fst (update now t0))
                  (TankShiftSpec.update_in_range now t0 Ht0)
                  ltac:(congruence)) as [IL IR].
      split; congruence. }
  apply (Hgen nows (setRamp 0 interval t)).
  - apply TankShiftSpec.setRamp_in_range; [unfold is_u8; lia | exact Ht].
  - reflexivity.
Qed.

Lemma zero_ramp_step_freezes_witness :
  _currentLeftSpeed
    (run_updates [10; 20; 30; 4000]
       (setRamp 0 10 (forward (setSpeed 200 200 (Tank_new 22 21 25 13 15 14))))) = 0.
Proof.
  refine (proj1 (zero_ramp_step_freezes
            (forward (setSpeed 200 200 (Tank_new 22 21 25 13 15 14)))
            10 [10; 20; 30; 4000] _)).
  vm_compute; repeat split; discriminate.
Defined.

Lemma tank_eq (t u : Tank) :
  (_leftIn1 t, _leftIn2 t, _leftPwm t, _rightIn1 t, _rightIn2 t, _rightPwm t)
  = (_leftIn1 u, _leftIn2 u, _leftPwm u, _rightIn1 u, _rightIn2 u, _rightPwm u) ->
  (_targetLeftSpeed t, _targetRightSpeed t, _currentLeftSpeed t, _currentRightSpeed t)
  = (_targetLeftSpeed u, _targetRightSpeed u, _currentLeftSpeed u, _currentRightSpeed u) ->
  (_rampStep t, _rampInterval t, _lastRampTime t)
  = (_rampStep u, _rampInterval u, _lastRampTime u) ->
  t = u.
Proof.
  destruct t, u; cbn. intros H1 H2 H3.
  injection H1 as -> -> -> -> -> ->.
  injection H2 as -> -> -> ->.
  injection H3 as -> -> ->. reflexivity.
Qed.

(** X5. Of two direction calls in a row only the last counts: for each of
    [forward], [backward], [left] and [right], calling it after any of the
    four gives the same object as calling it alone; in particular each is
    idempotent.  The direction methods only set signs, the magnitudes are
    those of the targets before. *)
Theorem last_direction_wins (t : Tank) :
  speeds_in_range t ->
  forall d1 d2,
    In d1 [forward; backward; left; right] ->
    In d2 [forward; backward; left; right] ->
    d2 (d1 t) = d2 t /\
    Z.abs (_targetLeftSpeed (d2 t)) = Z.abs (_targetLeftSpeed t) /\
    Z.abs (_targetRightSpeed (d2 t)) = Z.abs (_targetRightSpeed t).
Proof.
  unfold speeds_in_range; intros Ht d1 d2 H1 H2.
  cbn [In] in H1, H2.
  destruct H1 as [<- | [<- | [<- | [<- | []]]]];
    destruct H2 as [<- | [<- | [<- | [<- | []]]]];
    unfold forward, backward, left, right, set_targets;
    (split;
     [ apply tank_eq; [reflexivity | | reflexivity];
       cbn [_targetLeftSpeed _targetRightSpeed _currentLeftSpeed _currentRightSpeed];
       unwrap_i16;
       repeat match goal with
              | |- (_, _) = (_, _) => apply f_equal2
              end; lia
     | cbn [_targetLeftSpeed _targetRightSpeed]; unwrap_i16; split; lia ]).
Qed.

Lemma last_direction_wins_witness :
  backward (left (forward (setSpeed 120 80 (Tank_new 22 21 25 13 15 14))))
  = backward (forward (setSpeed 120 80 (Tank_new 22 21 25 13 15 14))).
Proof.
  refine (proj1 (last_direction_wins
            (forward (setSpeed 120 80 (Tank_new 22 21 25 13 15 14))) _
            left backward _ _)).
  - vm_compute; repeat split; discriminate.
  - simpl; auto.
  - simpl; auto.
Defined.

(** X6. Stopping forgets the direction.  [setSpeed(0, 0)] does exactly what
    [stop()] does; after either, each direction method leaves both targets
    at zero, and the next [setSpeed(l, r)] sets the targets to (+l, +r),
    forward, whichever way the tank was heading before it stopped. *)
Theorem stop_forgets_direction (t : Tank) (l r : Z) :
  is_u8 l -> is_u8 r ->
  setSpeed 0 0 t = stop t /\
  (forall d, In d [forward; backward; left; right] -> d (stop t) = stop t) /\
  targets (setSpeed l r (stop t)) = (l, r) /\
  (forall d, In d [forward; backward; left; right] ->
     targets (setSpeed l r (setSpeed 0 0 (d t))) = (l, r)).
Proof.
  intros Hl Hr.
  assert (Hzero : forall u, setSpeed 0 0 u = stop u).
  { intros u. unfold setSpeed, stop.
    destruct (_targetLeftSpeed u <? 0), (_targetRightSpeed u <? 0); reflexivity. }
  assert (Hafter : forall u, targets (setSpeed l r (stop u)) = (l, r)).
  { intros u. destruct (TankShiftSpec.setSpeed_targets (stop u) l r Hl Hr) as [HL HR].
    unfold targets. rewrite HL, HR. reflexivity. }
  split; [apply Hzero|].
  split; [| split; [apply Hafter|]].
  - intros d Hd. cbn [In] in Hd.
    destruct Hd as [<- | [<- | [<- | [<- | []]]]]; reflexivity.
  - intros d _. rewrite Hzero. apply Hafter.
Qed.

Lemma stop_forgets_direction_witness :
  targets (setSpeed 120 120 (setSpeed 0 0
             (backward (setSpeed 80 80 (Tank_new 22 21 25 13 15 14)))))
  = (120, 120).
Proof.
  refine (proj2 (proj2 (proj2 (stop_forgets_direction
            (setSpeed 80 80 (Tank_new 22 21 25 13 15 14)) 120 120 _ _)))
            backward _);
    [unfold is_u8; lia | unfold is_u8; lia | simpl; auto].
Defined.

Lemma do_call_stays_off (c : call) (t : Tank) :
  asks_no_speed c = true ->
  (_targetLeftSpeed t, _targetRightSpeed t, _currentLeftSpeed t, _currentRightSpeed t)
  = (0, 0, 0, 0) ->
  (_targetLeftSpeed (fst (do_call c t)), _targetRightSpeed (fst (do_call c t)),
   _currentLeftSpeed (fst (do_call c t)), _currentRightSpeed (fst (do_call c t)))
  = (0, 0, 0, 0) /\
  forallb write_is_off (snd (do_call c t)) = true.
Proof.
  intros Hc Hz. injection Hz as HtL HtR HcL HcR.
  destruct c; cbn [do_call fst snd asks_no_speed] in *.
  - cbn. rewrite HtL, HtR, HcL, HcR. split; reflexivity.
  - apply andb_true_iff in Hc. destruct Hc as [El Er].
    apply Z.eqb_eq in El, Er. subst l r.
    unfold setSpeed. cbn. rewrite HtL, HtR, HcL, HcR. split; reflexivity.
  - cbn. rewrite HtL, HtR, HcL, HcR. split; reflexivity.
  - cbn. rewrite HtL, HtR, HcL, HcR. split; reflexivity.
  - cbn. rewrite HtL, HtR, HcL, HcR. split; reflexivity.
  - cbn. rewrite HtL, HtR, HcL, HcR. split; reflexivity.
  - cbn. rewrite HcL, HcR. split; reflexivity.
  - unfold update.
    destruct (wrap_u32 (now - _lastRampTime t) <? _rampInterval t).
    + cbn. rewrite HtL, HtR, HcL, HcR. split; reflexivity.
    + rewrite HtL, HtR, HcL, HcR. cbn. split; reflexivity.
Qed.

(** X7. The motors stay off until a speed is asked for.  From a state whose
    four speed fields are zero (a new tank, or one after [begin()]), a
    program that never calls [setSpeed] with a non-zero argument, whatever
    direction methods, ramp settings and updates it calls, leaves all four
    speed fields at zero, and every pin write it causes is a LOW level or a
    zero duty. *)
Theorem no_speed_no_motion (cs : list call) :
  forall (t : Tank),
    (_targetLeftSpeed t, _targetRightSpeed t, _currentLeftSpeed t, _currentRightSpeed t)
    = (0, 0, 0, 0) ->
    forallb asks_no_speed cs = true ->
    (_targetLeftSpeed (fst (run_calls cs t)), _targetRightSpeed (fst (run_calls cs t)),
     _currentLeftSpeed (fst (run_calls cs t)), _currentRightSpeed (fst (run_calls cs t)))
    = (0, 0, 0, 0) /\
    forallb write_is_off (snd (run_calls cs t)) = true.
Proof.
  induction cs as [| c rest IH]; intros t Hz Hcs.
  - split; [exact Hz | reflexivity].
  - cbn [forallb] in Hcs. apply andb_true_iff in Hcs. destruct Hcs as [Hc Hrest].
    destruct (do_call_stays_off c t Hc Hz) as [Hz1 Hw1].
    specialize (IH (fst (do_call c t)) Hz1 Hrest). destruct IH as [Hz2 Hw2].
    cbn [run_calls].
    destruct (do_call c t) as [t1 ws1]. cbn [fst snd] in *.
    destruct (run_calls rest t1) as [t2 ws2]. cbn [fst snd] in *.
    split; [exact Hz2|].
    rewrite forallb_app, Hw1, Hw2. reflexivity.
Qed.

Lemma no_speed_no_motion_witness :
  forallb write_is_off
    (snd (run_calls [CallForward; CallUpdate 10; CallSetRamp 50 5; CallLeft;
                     CallUpdate 40; CallSetSpeed 0 0; CallBackward; CallUpdate 90]
                    (fst (begin (Tank_new 22 21 25 13 15 14))))) = true.
Proof.
  refine (proj2 (no_speed_no_motion
            [CallForward; CallUpdate 10; CallSetRamp 50 5; CallLeft;
             CallUpdate 40; CallSetSpeed 0 0; CallBackward; CallUpdate 90]
            (fst (begin (Tank_new 22 21 25 13 15 14))) _ _));
    reflexivity.
Defined.

End TankShiftRun.

(** ** The gateway over whole runs *)

Module GatewayRun.

Import ControlProtocol Gateway.

Lemma toupper_idempotent (c : ascii) : toupper (toupper c) = toupper c.
Proof. destruct c as [[] [] [] [] [] [] [] []]; reflexivity. Qed.

(** What the [switch] decides to send, key by key, and that it makes no
    call on the radio itself. *)
Lemma dispatch_command (u : ascii) (env : Env) (g : State) :
  let cmd := snd (fst (dispatch u env g)) in
  (In u ["W"; "F"; "8"]%char -> cmd = Some Forward) /\
  (In u ["S"; "B"; "2"]%char -> cmd = Some Backward) /\
  (In u ["A"; "L"; "4"]%char -> cmd = Some Left) /\
  (In u ["D"; "R"; "6"]%char -> cmd = Some Right) /\
  (In u ["X"; " "; "5"]%char -> cmd = Some Stop) /\
  (~ In u ["W"; "F"; "8"; "S"; "B"; "2"; "A"; "L"; "4";
           "D"; "R"; "6"; "X"; " "; "5"]%char -> cmd = None).
Proof.
  destruct u as [[] [] [] [] [] [] [] []]; cbv zeta; cbn [In]; repeat split;
    try (intros H; solve [reflexivity | intuition discriminate]);
    intros H; exfalso; apply H; auto 20.
Qed.

Lemma dispatch_no_radio (u : ascii) (env : Env) (g : State) :
  forallb (fun e => negb (is_radio_call e)) (snd (dispatch u env g)) = true.
Proof. destruct u as [[] [] [] [] [] [] [] []]; reflexivity. Qed.

Lemma dispatch_state_of_movement (u : ascii) (env : Env) (g : State) :
  snd (fst (dispatch u env g)) <> None ->
  currentSpeed (fst (fst (dispatch u env g))) = currentSpeed g.
Proof.
  destruct u as [[] [] [] [] [] [] [] []]; intros H;
    solve [reflexivity | exfalso; apply H; reflexivity].
Qed.

Lemma dispatch_env_independent (u : ascii) (env1 env2 : Env) (g : State) :
  fst (dispatch u env1 g) = fst (dispatch u env2 g).
Proof. destruct u as [[] [] [] [] [] [] [] []]; reflexivity. Qed.

(** X8. Commands are case-insensitive: [handleBluetoothCommand] does the
    same for a byte and for its upper-case form, in the globals it leaves,
    the output it prints and the frames it sends.  The upper-case form of a
    byte is the byte less 32 for the codes 97 to 122 ('a' to 'z') and the
    byte itself for every other code. *)
Theorem handle_ignores_case
    (encryptFrame : ControlFrame -> Z -> option (list Z))
    (c : ascii) (env : Env) (g : State) :
  handleBluetoothCommand encryptFrame (toupper c) env g
  = handleBluetoothCommand encryptFrame c env g /\
  nat_of_ascii (toupper c)
  = (if (Nat.leb 97 (nat_of_ascii c) && Nat.leb (nat_of_ascii c) 122)%bool
     then (nat_of_ascii c - 32)%nat else nat_of_ascii c).
Proof.
  split.
  - unfold handleBluetoothCommand. rewrite toupper_idempotent. reflexivity.
  - destruct c as [[] [] [] [] [] [] [] []]; reflexivity.
Qed.

Section WithCipher.

Variable encryptFrame : ControlFrame -> Z -> option (list Z).

Lemma send_events_radio (cmd : Command) (l r ep : Z) (g : State) :
  let s := sendLoRaFrame encryptFrame cmd l r ep g in
  filter is_radio_call (send_events s) = [] \/
  exists buf,
    filter is_radio_call (send_events s)
    = [LoRaIdle; LoRaBeginPacket; LoRaWrite buf; LoRaEndPacket ep; LoRaReceive].
Proof.
  cbv zeta. unfold sendLoRaFrame.
  destruct (encryptFrame (initFrame cmd l r (sequenceCounter g)) kFrameSize)
    as [buf |]; cbn [send_events].
  - right. exists buf. destruct (ep =? 1); reflexivity.
  - left. reflexivity.
Qed.

Lemma filter_no_radio (evs : list event) :
  forallb (fun e => negb (is_radio_call e)) evs = true ->
  filter is_radio_call evs = [].
Proof.
  induction evs as [| e rest IH]; cbn [forallb filter]; intros H; [reflexivity|].
  apply andb_true_iff in H. destruct H as [He Hrest].
  apply negb_true_iff in He. rewrite He. apply IH. exact Hrest.
Qed.

(** What [handleBluetoothCommand] comes to, given what the [switch] decided. *)
Lemma handle_unfold (c : ascii) (env : Env) (g : State) :
  let d := dispatch (toupper c) env g in
  let o := handleBluetoothCommand encryptFrame c env g in
  match snd (fst d) with
  | Some cmd =>
      let s := sendLoRaFrame encryptFrame cmd (currentSpeed (fst (fst d)))
                 (currentSpeed (fst (fst d))) (env_endPacket env) (fst (fst d)) in
      out_sends o = [s] /\
      out_state o = send_state s /\
      out_events o
      = snd d ++ send_events s ++
        (if send_ok s then []
         else [BtPrintln (Lit "ERROR: LoRa transmission failed!")])
  | None => out_sends o = [] /\ out_state o = fst (fst d) /\ out_events o = snd d
  end.
Proof.
  cbv zeta. unfold handleBluetoothCommand.
  destruct (dispatch (toupper c) env g) as [[g1 [cmd |]] evs]; cbn [fst snd];
    repeat split; reflexivity.
Qed.

(** X9. Only the fifteen movement keys transmit.  For W, F, 8 (Forward),
    S, B, 2 (Backward), A, L, 4 (Left), D, R, 6 (Right) and X, space, 5
    (Stop), in either case, [handleBluetoothCommand] makes exactly one call
    of [sendLoRaFrame], for that command, with the stored speed as both the
    left and the right speed (the Stop key too) and the current sequence
    number.  For every other byte (speed keys, help, status, line ends,
    unknown bytes) it makes no call of [sendLoRaFrame] and no call on the
    radio, and the sequence counter stays as it was. *)
Theorem only_movement_keys_transmit (c : ascii) (env : Env) (g : State) :
  let u := toupper c in
  let o := handleBluetoothCommand encryptFrame c env g in
  let sends cmd :=
    exists s, out_sends o = [s] /\
      send_frame s = initFrame cmd (currentSpeed g) (currentSpeed g) (sequenceCounter g) in
  (In u ["W"; "F"; "8"]%char -> sends Forward) /\
  (In u ["S"; "B"; "2"]%char -> sends Backward) /\
  (In u ["A"; "L"; "4"]%char -> sends Left) /\
  (In u ["D"; "R"; "6"]%char -> sends Right) /\
  (In u ["X"; " "; "5"]%char -> sends Stop) /\
  (~ In u ["W"; "F"; "8"; "S"; "B"; "2"; "A"; "L"; "4";
           "D"; "R"; "6"; "X"; " "; "5"]%char ->
   out_sends o = [] /\
   filter is_radio_call (out_events o) = [] /\
   sequenceCounter (out_state o) = sequenceCounter g).
Proof.
  intros u o sends. subst u o sends.
  pose proof (handle_unfold c env g) as Hu. cbv zeta in Hu.
  destruct (dispatch_command (toupper c) env g) as (Hf & Hb & Hl & Hr & Hs & Hn).
  cbv zeta in Hf, Hb, Hl, Hr, Hs, Hn.
  destruct (GatewaySpec.dispatch_keeps_counter (toupper c) env g) as [Hseq _].
  pose proof (dispatch_state_of_movement (toupper c) env g) as Hv.
  pose proof (dispatch_no_radio (toupper c) env g) as Hquiet.
  assert (Hsend : forall cmd, snd (fst (dispatch (toupper c) env g)) = Some cmd ->
            exists s, out_sends (handleBluetoothCommand encryptFrame c env g) = [s] /\
              send_frame s
              = initFrame cmd (currentSpeed g) (currentSpeed g) (sequenceCounter g)).
  { intros cmd E. rewrite E in Hu, Hv. destruct Hu as (Ho & _ & _).
    eexists. split; [exact Ho|].
    destruct (GatewaySpec.sendLoRaFrame_state encryptFrame cmd
                (currentSpeed (fst (fst (dispatch (toupper c) env g))))
                (currentSpeed (fst (fst (dispatch (toupper c) env g))))
                (env_endPacket env) (fst (fst (dispatch (toupper c) env g))))
      as [_ Hfr].
    rewrite Hfr, Hseq, Hv by discriminate. reflexivity. }
  repeat split; try (intros H; apply Hsend; auto).
  - rewrite (Hn H) in Hu. tauto.
  - rewrite (Hn H) in Hu. destruct Hu as (_ & _ & ->).
    apply filter_no_radio. exact Hquiet.
  - rewrite (Hn H) in Hu. destruct Hu as (_ & -> & _). exact Hseq.
Qed.

Lemma press_speed_key (c : ascii) (env : Env) (g : State) :
  is_u8 (currentSpeed g) ->
  (c = "+"%char ->
   currentSpeed (out_state (handleBluetoothCommand encryptFrame c env g))
   = Z.min 255 (currentSpeed g + 25)) /\
  (c = "-"%char ->
   currentSpeed (out_state (handleBluetoothCommand encryptFrame c env g))
   = Z.max 0 (currentSpeed g - 25)).
Proof.
  unfold is_u8; intros Hv.
  rewrite GatewaySpec.handle_speed.
  split; intros ->; cbn [toupper nat_of_ascii]; cbn.
  - apply wrap_u8_small. unfold is_u8. lia.
  - apply wrap_u8_small. unfold is_u8. lia.
Qed.

(** X10. The speed keys step by 25 and saturate: from a stored speed [v],
    [n] presses of '+' leave [min 255 (v + 25 n)] and [n] presses of '-'
    leave [max 0 (v - 25 n)], whatever the radio and the clock do in
    between.  Eleven presses of either key therefore reach 255 or 0 from
    any speed. *)
Theorem speed_keys_saturate (envs : list Env) :
  forall (g : State),
    is_u8 (currentSpeed g) ->
    let n := Z.of_nat (List.length envs) in
    currentSpeed (handle_all encryptFrame (map (pair "+"%char) envs) g)
    = Z.min 255 (currentSpeed g + 25 * n) /\
    currentSpeed (handle_all encryptFrame (map (pair "-"%char) envs) g)
    = Z.max 0 (currentSpeed g - 25 * n) /\
    (11 <= n ->
     currentSpeed (handle_all encryptFrame (map (pair "+"%char) envs) g) = 255 /\
     currentSpeed (handle_all encryptFrame (map (pair "-"%char) envs) g) = 0).
Proof.
  assert (Hgen : forall envs g, is_u8 (currentSpeed g) ->
            currentSpeed (handle_all encryptFrame (map (pair "+"%char) envs) g)
            = Z.min 255 (currentSpeed g + 25 * Z.of_nat (List.length envs)) /\
            currentSpeed (handle_all encryptFrame (map (pair "-"%char) envs) g)
            = Z.max 0 (currentSpeed g - 25 * Z.of_nat (List.length envs))).
  { clear envs. induction envs as [| env rest IH]; intros g Hv.
    - cbn. unfold is_u8 in Hv. lia.
    - cbn [map handle_all List.length]. rewrite Nat2Z.inj_succ.
      destruct (press_speed_key "+" env g Hv) as [Hp _].
      destruct (press_speed_key "-" env g Hv) as [_ Hm].
      specialize (Hp eq_refl). specialize (Hm eq_refl).
      destruct (IH (out_state (handleBluetoothCommand encryptFrame "+" env g))
                  (GatewaySpec.handle_speed_in_range encryptFrame "+" env g Hv))
        as [IHp _].
      destruct (IH (out_state (handleBluetoothCommand encryptFrame "-" env g))
                  (GatewaySpec.handle_speed_in_range encryptFrame "-" env g Hv))
        as [_ IHm].
      rewrite IHp, IHm, Hp, Hm. unfold is_u8 in Hv. lia. }
  intros g Hv n. subst n.
  destruct (Hgen envs g Hv) as [Hp Hm].
  rewrite Hp, Hm. unfold is_u8 in Hv. repeat split; lia.
Qed.

(** One pass of [loop] with no byte pending. *)
Lemma loop_silent (inp : LoopInput) (g : State) :
  bt_byte inp = None ->
  loop encryptFrame inp g
  = (if timeout_due (millis_check inp) g then
       let s := sendLoRaFrame encryptFrame Stop 0 0 (endPacket_timeout inp) g in
       mkOutcome (with_state (send_state s) "STOP (TIMEOUT)")
         ((send_events s ++
           [SerialPrintln (Lit "[SAFETY] Command timeout - sending STOP via LoRa");
            BtPrintln (Lit "TIMEOUT: Stop command sent")]) ++ [Delay 10])
         [s]
     else mkOutcome g [Delay 10] []).
Proof.
  intros Hnone. unfold loop. rewrite Hnone. cbn [out_state out_events out_sends].
  destruct (timeout_due (millis_check inp) g); reflexivity.
Qed.

(** X11. The safety stop repeats.  Once more than [COMMAND_TIMEOUT]
    milliseconds have passed since the last byte and the state is not STOP,
    every further pass of [loop] that finds no byte sends one more Stop
    frame with speeds (0, 0): the state it sets, STOP (TIMEOUT), does not
    end the condition.  Over [n] such passes [n] Stop frames are built, with
    consecutive sequence numbers, and the stored speed and the time of the
    last command stay where they were. *)
Theorem timeout_stop_repeats (inps : list LoopInput) :
  forall (g : State),
    currentState g <> "STOP"%string ->
    forallb (silent_and_late (lastCommandTime g)) inps = true ->
    let sends := run_loop_sends encryptFrame inps g in
    let g' := run_loop encryptFrame inps g in
    List.length sends = List.length inps /\
    (forall k s, nth_error sends k = Some s ->
       send_frame s = mkFrame Stop 0 0 (wrap_u8 (sequenceCounter g + Z.of_nat k))) /\
    lastCommandTime g' = lastCommandTime g /\
    currentSpeed g' = currentSpeed g /\
    (inps <> [] -> currentState g' = "STOP (TIMEOUT)"%string).
Proof.
  induction inps as [| inp rest IH]; intros g Hstate Hinps sends g'; subst sends g'.
  - cbn. repeat split; try reflexivity.
    + intros k s H. destruct k; discriminate H.
    + intros H. contradiction.
  - cbn [forallb] in Hinps. apply andb_true_iff in Hinps. destruct Hinps as [Hinp Hrest].
    unfold silent_and_late in Hinp.
    destruct (bt_byte inp) eqn:Hbyte; [discriminate Hinp|].
    assert (Hdue : timeout_due (millis_check inp) g = true).
    { unfold timeout_due. rewrite Hinp. cbn [andb].
      apply negb_true_iff. apply String.eqb_neq. exact Hstate. }
    pose proof (loop_silent inp g Hbyte) as Hloop. rewrite Hdue in Hloop. cbv zeta in Hloop.
    destruct (GatewaySpec.sendLoRaFrame_state encryptFrame Stop 0 0
                (endPacket_timeout inp) g) as [Hst Hfr].
    cbv zeta in Hst, Hfr.
    cbn [run_loop_sends run_loop]. rewrite Hloop. cbn [out_state out_sends].
    rewrite Hst.
    specialize (IH (with_state
                      (with_sequenceCounter g (wrap_u8 (sequenceCounter g + 1)))
                      "STOP (TIMEOUT)")).
    cbn [with_state with_sequenceCounter currentState lastCommandTime
         sequenceCounter currentSpeed] in IH.
    specialize (IH ltac:(discriminate) Hrest). cbv zeta in IH.
    destruct IH as (Hlen & Hnth & Hlast & Hspeed & Hfinal).
    cbn [with_state with_sequenceCounter].
    repeat split.
    + cbn [app List.length]. rewrite Hlen. reflexivity.
    + intros k s H. destruct k as [| k]; cbn [app nth_error] in H.
      * injection H as <-. rewrite Hfr. cbn [Z.of_nat]. rewrite Z.add_0_r. reflexivity.
      * rewrite (Hnth k s H). f_equal. rewrite GatewaySpec.wrap_u8_add_l.
        f_equal. lia.
    + exact Hlast.
    + exact Hspeed.
    + intros _. destruct rest as [| inp2 rest2].
      * reflexivity.
      * apply Hfinal. discriminate.
Qed.

(** X12. A stopped gateway stays silent.  While the state is STOP (as at
    start-up and after a Stop key) and no byte arrives, no pass of [loop]
    sends anything, however much time goes by: the timeout test excludes
    that state, and the globals are left exactly as they were. *)
Theorem stopped_gateway_stays_silent (inps : list LoopInput) (g : State) :
  currentState g = "STOP"%string ->
  forallb silent inps = true ->
  run_loop_sends encryptFrame inps g = [] /\
  run_loop encryptFrame inps g = g.
Proof.
  intros Hstate. induction inps as [| inp rest IH]; intros Hinps.
  - split; reflexivity.
  - cbn [forallb] in Hinps. apply andb_true_iff in Hinps. destruct Hinps as [Hinp Hrest].
    unfold silent in Hinp. destruct (bt_byte inp) eqn:Hbyte; [discriminate Hinp|].
    pose proof (loop_silent inp g Hbyte) as Hloop.
    assert (Hdue : timeout_due (millis_check inp) g = false).
    { unfold timeout_due. rewrite Hstate. cbn. apply andb_false_r. }
    rewrite Hdue in Hloop.
    cbn [run_loop_sends run_loop]. rewrite Hloop. cbn [out_state out_sends app].
    apply IH. exact Hrest.
Qed.

(** One pass of [loop] that reads a byte and tests the timeout no more than
    [COMMAND_TIMEOUT] later. *)
Lemma loop_byte_in_time (inp : LoopInput) (g : State) (c : ascii) :
  bt_byte inp = Some c ->
  wrap_u32 (millis_check inp - millis_cmd inp) <= COMMAND_TIMEOUT ->
  let o := handleBluetoothCommand encryptFrame c (cmd_env inp) g in
  loop encryptFrame inp g
  = mkOutcome (with_lastCommandTime (out_state o) (millis_cmd inp))
              (out_events o ++ [Delay 10]) (out_sends o).
Proof.
  intros Hbyte Hle o. subst o. unfold loop. rewrite Hbyte.
  cbn [out_state out_events out_sends].
  unfold timeout_due. cbn [with_lastCommandTime lastCommandTime].
  replace (wrap_u32 (millis_check inp - millis_cmd inp) >? COMMAND_TIMEOUT) with false
    by (symmetry; rewrite Z.gtb_ltb; apply Z.ltb_ge; exact Hle).
  reflexivity.
Qed.

Lemma handle_sends_at_most_one (c : ascii) (env : Env) (g : State) :
  (List.length (out_sends (handleBluetoothCommand encryptFrame c env g)) <= 1)%nat /\
  lastCommandTime (out_state (handleBluetoothCommand encryptFrame c env g))
  = lastCommandTime g.
Proof.
  pose proof (handle_unfold c env g) as Hu. cbv zeta in Hu.
  destruct (GatewaySpec.dispatch_keeps_counter (toupper c) env g) as [_ Hlast].
  destruct (snd (fst (dispatch (toupper c) env g))) as [cmd |].
  - destruct Hu as (-> & -> & _). split; [cbn; lia|].
    destruct (GatewaySpec.sendLoRaFrame_state encryptFrame cmd
                (currentSpeed (fst (fst (dispatch (toupper c) env g))))
                (currentSpeed (fst (fst (dispatch (toupper c) env g))))
                (env_endPacket env) (fst (fst (dispatch (toupper c) env g))))
      as [-> _].
    exact Hlast.
  - destruct Hu as (-> & -> & _). split; [cbn; lia | exact Hlast].
Qed.

(** X13. Any byte postpones the safety stop.  A pass of [loop] that reads a
    byte, whichever byte (a line end or an unknown key too), stores the
    clock as the time of the last command, and if the timeout test comes no
    more than [COMMAND_TIMEOUT] later the pass does what
    [handleBluetoothCommand] does for the byte and no more.  Over a run in
    which every timeout test finds at most [COMMAND_TIMEOUT] milliseconds
    gone since the last byte, no safety stop is sent: there are at most as
    many calls of [sendLoRaFrame] as bytes read. *)
Theorem any_byte_postpones_timeout :
  (forall (inp : LoopInput) (g : State) (c : ascii),
      bt_byte inp = Some c ->
      wrap_u32 (millis_check inp - millis_cmd inp) <= COMMAND_TIMEOUT ->
      out_sends (loop encryptFrame inp g)
      = out_sends (handleBluetoothCommand encryptFrame c (cmd_env inp) g) /\
      out_state (loop encryptFrame inp g)
      = with_lastCommandTime
          (out_state (handleBluetoothCommand encryptFrame c (cmd_env inp) g))
          (millis_cmd inp)) /\
  (forall (inps : list LoopInput) (g : State),
      kept_alive (lastCommandTime g) inps = true ->
      (List.length (run_loop_sends encryptFrame inps g) <= bytes_read inps)%nat).
Proof.
  split.
  - intros inp g c Hbyte Hle.
    rewrite (loop_byte_in_time inp g c Hbyte Hle). split; reflexivity.
  - induction inps as [| inp rest IH]; intros g Halive.
    + cbn. lia.
    + cbn [kept_alive] in Halive. cbn [run_loop_sends]. unfold bytes_read. cbn [filter].
      destruct (bt_byte inp) as [c |] eqn:Hbyte;
        apply andb_true_iff in Halive; destruct Halive as [Hle Hrest];
        apply Z.leb_le in Hle.
      * rewrite (loop_byte_in_time inp g c Hbyte Hle). cbn [out_state out_sends].
        destruct (handle_sends_at_most_one c (cmd_env inp) g) as [H1 _].
        specialize (IH (with_lastCommandTime
                          (out_state (handleBluetoothCommand encryptFrame c (cmd_env inp) g))
                          (millis_cmd inp)) Hrest).
        unfold bytes_read in IH. rewrite length_app. cbn [List.length]. lia.
      * rewrite (loop_silent inp g Hbyte).
        replace (timeout_due (millis_check inp) g) with false.
        -- cbn [out_state out_sends app]. apply (IH g Hrest).
        -- symmetry. unfold timeout_due.
           replace (wrap_u32 (millis_check inp - lastCommandTime g) >? COMMAND_TIMEOUT)
             with false by (symmetry; rewrite Z.gtb_ltb; apply Z.ltb_ge; exact Hle).
           reflexivity.
Qed.

Lemma handle_radio_calls (c : ascii) (env : Env) (g : State) :
  exists txs,
    filter is_radio_call (out_events (handleBluetoothCommand encryptFrame c env g))
    = flat_map radio_transaction txs /\
    (List.length txs <= 1)%nat.
Proof.
  pose proof (handle_unfold c env g) as Hu. cbv zeta in Hu.
  pose proof (filter_no_radio _ (dispatch_no_radio (toupper c) env g)) as Hquiet.
  destruct (snd (fst (dispatch (toupper c) env g))) as [cmd |].
  - destruct Hu as (_ & _ & ->).
    rewrite !filter_app, Hquiet. cbn [app].
    replace (filter is_radio_call
               (if send_ok (sendLoRaFrame encryptFrame cmd
                     (currentSpeed (fst (fst (dispatch (toupper c) env g))))
                     (currentSpeed (fst (fst (dispatch (toupper c) env g))))
                     (env_endPacket env) (fst (fst (dispatch (toupper c) env g))))
                then []
                else [BtPrintln (Lit "ERROR: LoRa transmission failed!")]))
      with (@nil event) by (destruct (send_ok _); reflexivity).
    rewrite app_nil_r.
    destruct (send_events_radio cmd
                (currentSpeed (fst (fst (dispatch (toupper c) env g))))
                (currentSpeed (fst (fst (dispatch (toupper c) env g))))
                (env_endPacket env) (fst (fst (dispatch (toupper c) env g))))
      as [E | [buf E]]; cbv zeta in E; rewrite E.
    + exists []. split; [reflexivity | cbn; lia].
    + exists [(buf, env_endPacket env)]. split; [reflexivity | cbn; lia].
  - destruct Hu as (_ & _ & ->). rewrite Hquiet.
    exists []. split; [reflexivity | cbn; lia].
Qed.

(** X14. The radio is never left in the middle of a transmission.  The
    calls one pass of [loop] makes on the radio are at most two whole
    transmissions one after the other, each of them idle, begin packet,
    write, end packet, receive in that order: the radio is put back into
    receive mode after every packet, whether [LoRa.endPacket()] reported
    success or not. *)
Theorem radio_calls_are_whole_transmissions (inp : LoopInput) (g : State) :
  exists txs,
    filter is_radio_call (out_events (loop encryptFrame inp g))
    = flat_map radio_transaction txs /\
    (List.length txs <= 2)%nat.
Proof.
  assert (Htimeout : forall g1 evs txs,
            filter is_radio_call evs = flat_map radio_transaction txs ->
            exists txs',
              filter is_radio_call
                ((evs ++ send_events (sendLoRaFrame encryptFrame Stop 0 0
                                        (endPacket_timeout inp) g1) ++
                  [SerialPrintln (Lit "[SAFETY] Command timeout - sending STOP via LoRa");
                   BtPrintln (Lit "TIMEOUT: Stop command sent")]) ++ [Delay 10])
              = flat_map radio_transaction txs' /\
              (List.length txs' <= List.length txs + 1)%nat).
  { intros g1 evs txs E. rewrite !filter_app, E. cbn [filter is_radio_call].
    rewrite !app_nil_r.
    destruct (send_events_radio Stop 0 0 (endPacket_timeout inp) g1)
      as [E1 | [buf E1]]; cbv zeta in E1; rewrite E1.
    - exists txs. rewrite app_nil_r. split; [reflexivity | lia].
    - exists (txs ++ [(buf, endPacket_timeout inp)]).
      rewrite flat_map_app. split; [reflexivity|].
      rewrite length_app. cbn. lia. }
  unfold loop.
  destruct (bt_byte inp) as [c |].
  - destruct (handle_radio_calls c (cmd_env inp) g) as (txs & E & Hlen).
    cbn [out_state out_events out_sends].
    destruct (timeout_due (millis_check inp) _); cbn [out_events].
    + match goal with
      | |- context [sendLoRaFrame encryptFrame Stop 0 0 _ ?g1] =>
          destruct (Htimeout g1 _ txs E) as (txs' & E' & Hlen')
      end.
      exists txs'. split; [exact E' | lia].
    + exists txs. rewrite filter_app, E. cbn [filter is_radio_call].
      rewrite app_nil_r. split; [reflexivity | lia].
  - cbn [out_state out_events out_sends].
    destruct (timeout_due (millis_check inp) g); cbn [out_events].
    + destruct (Htimeout g [] [] eq_refl) as (txs' & E' & Hlen').
      exists txs'. split; [exact E' | cbn in Hlen'; lia].
    + exists []. split; [reflexivity | cbn; lia].
Qed.

Lemma send_events_no_report (cmd : Command) (l r ep : Z) (g : State) :
  existsb is_failure_report (send_events (sendLoRaFrame encryptFrame cmd l r ep g))
  = false.
Proof.
  unfold sendLoRaFrame.
  destruct (encryptFrame (initFrame cmd l r (sequenceCounter g)) kFrameSize);
    [destruct (ep =? 1)|]; reflexivity.
Qed.

Lemma dispatch_no_report (u : ascii) (env : Env) (g : State) :
  existsb is_failure_report (snd (dispatch u env g)) = false.
Proof. destruct u as [[] [] [] [] [] [] [] []]; reflexivity. Qed.

(** X15. The operator is told of a failed transmission exactly when there
    was one: [handleBluetoothCommand] prints the line
    ERROR: LoRa transmission failed! on Bluetooth if and only if it called
    [sendLoRaFrame] and the call returned false, be it for a failed
    encryption or a refused packet. *)
Theorem failure_is_reported (c : ascii) (env : Env) (g : State) :
  existsb is_failure_report
    (out_events (handleBluetoothCommand encryptFrame c env g))
  = existsb (fun s => negb (send_ok s))
      (out_sends (handleBluetoothCommand encryptFrame c env g)).
Proof.
  pose proof (handle_unfold c env g) as Hu. cbv zeta in Hu.
  pose proof (dispatch_no_report (toupper c) env g) as Hquiet.
  destruct (snd (fst (dispatch (toupper c) env g))) as [cmd |].
  - destruct Hu as (-> & _ & ->).
    rewrite !existsb_app, Hquiet, send_events_no_report.
    cbn [existsb orb]. destruct (send_ok _); reflexivity.
  - destruct Hu as (-> & _ & ->). rewrite Hquiet. reflexivity.
Qed.

Lemma loop_sends_frames (inp : LoopInput) (g : State) :
  forall s, In s (out_sends (loop encryptFrame inp g)) ->
    exists cmd v seq, send_frame s = initFrame cmd v v seq.
Proof.
  assert (Hsend : forall cmd v ep g1,
            exists cmd' v' seq,
              send_frame (sendLoRaFrame encryptFrame cmd v v ep g1)
              = initFrame cmd' v' v' seq).
  { intros cmd v ep g1.
    destruct (GatewaySpec.sendLoRaFrame_state encryptFrame cmd v v ep g1) as [_ ->].
    eauto. }
  assert (Hhandle : forall c env s,
            In s (out_sends (handleBluetoothCommand encryptFrame c env g)) ->
            exists cmd v seq, send_frame s = initFrame cmd v v seq).
  { intros c env s Hs.
    pose proof (handle_unfold c env g) as Hu. cbv zeta in Hu.
    destruct (snd (fst (dispatch (toupper c) env g))) as [cmd |].
    - destruct Hu as (E & _ & _). rewrite E in Hs.
      destruct Hs as [<- | []]. apply Hsend.
    - destruct Hu as (E & _ & _). rewrite E in Hs. destruct Hs. }
  intros s Hs. unfold loop in Hs.
  destruct (bt_byte inp) as [c |]; cbn [out_state out_events out_sends] in Hs.
  - destruct (timeout_due (millis_check inp) _); cbn [out_sends] in Hs.
    + apply in_app_or in Hs. destruct Hs as [Hs | [<- | []]].
      * exact (Hhandle c (cmd_env inp) s Hs).
      * apply Hsend.
    + exact (Hhandle c (cmd_env inp) s Hs).
  - destruct (timeout_due (millis_check inp) g); cbn [out_sends app] in Hs.
    + destruct Hs as [<- | []]. apply Hsend.
    + destruct Hs.
Qed.

(** X16. Every frame the gateway builds carries one speed for both sides.
    Over any run of [loop], from any globals, each frame handed to
    [sendLoRaFrame] has its left speed equal to its right speed, and speed
    and sequence number within 0..255. *)
Theorem frames_carry_one_speed (inps : list LoopInput) :
  forall (g : State) (s : SendOutcome),
    In s (run_loop_sends encryptFrame inps g) ->
    leftSpeed (send_frame s) = rightSpeed (send_frame s) /\
    is_u8 (leftSpeed (send_frame s)) /\
    is_u8 (sequence (send_frame s)).
Proof.
  induction inps as [| inp rest IH]; intros g s Hs; cbn [run_loop_sends] in Hs.
  - destruct Hs.
  - apply in_app_or in Hs. destruct Hs as [Hs | Hs].
    + destruct (loop_sends_frames inp g s Hs) as (cmd & v & seq & ->).
      cbn. repeat split; apply wrap_u8_range.
    + exact (IH _ s Hs).
Qed.

End WithCipher.

Lemma handle_state
    (encryptFrame : ControlFrame -> Z -> option (list Z))
    (c : ascii) (env : Env) (g : State) :
  out_state (handleBluetoothCommand encryptFrame c env g)
  = match snd (fst (dispatch (toupper c) env g)) with
    | Some _ =>
        with_sequenceCounter (fst (fst (dispatch (toupper c) env g)))
          (wrap_u8 (sequenceCounter (fst (fst (dispatch (toupper c) env g))) + 1))
    | None => fst (fst (dispatch (toupper c) env g))
    end.
Proof.
  pose proof (handle_unfold encryptFrame c env g) as Hu. cbv zeta in Hu.
  destruct (snd (fst (dispatch (toupper c) env g))) as [cmd |].
  - destruct Hu as (_ & -> & _).
    destruct (GatewaySpec.sendLoRaFrame_state encryptFrame cmd
                (currentSpeed (fst (fst (dispatch (toupper c) env g))))
                (currentSpeed (fst (fst (dispatch (toupper c) env g))))
                (env_endPacket env) (fst (fst (dispatch (toupper c) env g))))
      as [-> _].
    reflexivity.
  - destruct Hu as (_ & -> & _). reflexivity.
Qed.

Lemma loop_state_independent
    (enc1 enc2 : ControlFrame -> Z -> option (list Z))
    (inp1 inp2 : LoopInput) (g : State) :
  same_bytes_and_clock inp1 inp2 ->
  out_state (loop enc1 inp1 g) = out_state (loop enc2 inp2 g).
Proof.
  intros (Hb & Hc & Hk).
  assert (Hfirst :
    out_state (match bt_byte inp1 with
               | Some cmd =>
                   mkOutcome (with_lastCommandTime
                                (out_state (handleBluetoothCommand enc1 cmd (cmd_env inp1) g))
                                (millis_cmd inp1))
                             (out_events (handleBluetoothCommand enc1 cmd (cmd_env inp1) g))
                             (out_sends (handleBluetoothCommand enc1 cmd (cmd_env inp1) g))
               | None => mkOutcome g [] []
               end)
    = out_state (match bt_byte inp2 with
                 | Some cmd =>
                     mkOutcome (with_lastCommandTime
                                  (out_state (handleBluetoothCommand enc2 cmd (cmd_env inp2) g))
                                  (millis_cmd inp2))
                               (out_events (handleBluetoothCommand enc2 cmd (cmd_env inp2) g))
                               (out_sends (handleBluetoothCommand enc2 cmd (cmd_env inp2) g))
                 | None => mkOutcome g [] []
                 end)).
  { rewrite <- Hb, <- Hc. destruct (bt_byte inp1) as [c |]; [| reflexivity].
    cbn [out_state]. rewrite !handle_state.
    rewrite (dispatch_env_independent (toupper c) (cmd_env inp1) (cmd_env inp2) g).
    reflexivity. }
  unfold loop. cbn [out_state].
  rewrite <- Hk.
  match goal with
  | H : out_state ?a = out_state ?b |- _ =>
      generalize dependent a; generalize dependent b
  end.
  intros o2 o1 E. cbn [out_state]. rewrite E.
  destruct (timeout_due (millis_check inp1) (out_state o2)); cbn [out_state].
  - destruct (GatewaySpec.sendLoRaFrame_state enc1 Stop 0 0 (endPacket_timeout inp1)
                (out_state o2)) as [-> _].
    destruct (GatewaySpec.sendLoRaFrame_state enc2 Stop 0 0 (endPacket_timeout inp2)
                (out_state o2)) as [-> _].
    reflexivity.
  - exact E.
Qed.

(** X17. The gateway never learns anything from the radio.  Two runs of
    [loop] that get the same bytes at the same clock readings end with the
    same globals (state string, stored speed, time of the last command,
    sequence counter), whatever the cipher layer does and whatever
    [LoRa.endPacket()] returns in each pass: the state says FORWARD and the
    counter advances also when nothing could be transmitted. *)
Theorem globals_independent_of_radio
    (enc1 enc2 : ControlFrame -> Z -> option (list Z))
    (inps1 inps2 : list LoopInput) :
  Forall2 same_bytes_and_clock inps1 inps2 ->
  forall g, run_loop enc1 inps1 g = run_loop enc2 inps2 g.
Proof.
  induction 1 as [| inp1 inp2 rest1 rest2 Hsame _ IH]; intros g.
  - reflexivity.
  - cbn [run_loop]. rewrite (loop_state_independent enc1 enc2 inp1 inp2 g Hsame).
    apply IH.
Qed.

Lemma only_movement_keys_transmit_witness :
  exists s,
    out_sends (handleBluetoothCommand (ControlProtocol.encryptFrame sample_wire)
                 "w" (mkEnv 1 0 0) startup) = [s] /\
    send_frame s = initFrame Forward 200 200 0.
Proof.
  apply (proj1 (only_movement_keys_transmit (ControlProtocol.encryptFrame sample_wire)
                  "w"%char (mkEnv 1 0 0) startup)).
  simpl; auto.
Defined.

Lemma speed_keys_saturate_witness :
  currentSpeed (handle_all (ControlProtocol.encryptFrame sample_wire)
                  (map (pair "-"%char) [mkEnv 1 0 0; mkEnv 0 5 0; mkEnv 1 9 0])
                  (with_speed startup 60)) = 0.
Proof.
  refine (eq_trans (proj1 (proj2 (speed_keys_saturate
            (ControlProtocol.encryptFrame sample_wire)
            [mkEnv 1 0 0; mkEnv 0 5 0; mkEnv 1 9 0] (with_speed startup 60) _))) eq_refl).
  unfold is_u8; simpl; lia.
Defined.

Lemma timeout_stop_repeats_witness :
  List.length
    (run_loop_sends (ControlProtocol.encryptFrame sample_wire)
       [mkLoopInput None (mkEnv 0 0 0) 0 3000 1;
        mkLoopInput None (mkEnv 0 0 0) 0 3010 0;
        mkLoopInput None (mkEnv 0 0 0) 0 3020 1]
       (mkState 200 "FORWARD" 5 1)) = 3%nat.
Proof.
  refine (proj1 (timeout_stop_repeats (ControlProtocol.encryptFrame sample_wire)
            [mkLoopInput None (mkEnv 0 0 0) 0 3000 1;
             mkLoopInput None (mkEnv 0 0 0) 0 3010 0;
             mkLoopInput None (mkEnv 0 0 0) 0 3020 1]
            (mkState 200 "FORWARD" 5 1) _ _)).
  - discriminate.
  - reflexivity.
Defined.

Lemma stopped_gateway_stays_silent_witness :
  run_loop_sends (ControlProtocol.encryptFrame sample_wire)
    [mkLoopInput None (mkEnv 0 0 0) 0 3000 1;
     mkLoopInput None (mkEnv 0 0 0) 0 4000000 1]
    startup = [].
Proof.
  refine (proj1 (stopped_gateway_stays_silent (ControlProtocol.encryptFrame sample_wire)
            [mkLoopInput None (mkEnv 0 0 0) 0 3000 1;
             mkLoopInput None (mkEnv 0 0 0) 0 4000000 1]
            startup _ _));
    reflexivity.
Defined.

Lemma any_byte_postpones_timeout_witness :
  (List.length
     (run_loop_sends (ControlProtocol.encryptFrame sample_wire)
        [mkLoopInput (Some "W"%char) (mkEnv 1 0 0) 100 100 1;
         mkLoopInput (Some "010"%char) (mkEnv 1 0 0) 1900 1900 1;
         mkLoopInput None (mkEnv 1 0 0) 0 3800 1;
         mkLoopInput (Some "010"%char) (mkEnv 1 0 0) 3850 3850 1;
         mkLoopInput None (mkEnv 1 0 0) 0 5800 1]
        startup) <= 3)%nat.
Proof.
  refine (proj2 (any_byte_postpones_timeout (ControlProtocol.encryptFrame sample_wire))
            [mkLoopInput (Some "W"%char) (mkEnv 1 0 0) 100 100 1;
             mkLoopInput (Some "010"%char) (mkEnv 1 0 0) 1900 1900 1;
             mkLoopInput None (mkEnv 1 0 0) 0 3800 1;
             mkLoopInput (Some "010"%char) (mkEnv 1 0 0) 3850 3850 1;
             mkLoopInput None (mkEnv 1 0 0) 0 5800 1]
            startup _).
  reflexivity.
Defined.

Lemma frames_carry_one_speed_witness :
  Forall (fun s => leftSpeed (send_frame s) = rightSpeed (send_frame s))
    (run_loop_sends (ControlProtocol.encryptFrame sample_wire)
       [mkLoopInput (Some "9"%char) (mkEnv 1 0 0) 100 100 1;
        mkLoopInput (Some "a"%char) (mkEnv 1 0 0) 200 200 1;
        mkLoopInput None (mkEnv 1 0 0) 0 3000 1]
       startup).
Proof.
  apply Forall_forall. intros s Hs.
  exact (proj1 (frames_carry_one_speed (ControlProtocol.encryptFrame sample_wire)
                  [mkLoopInput (Some "9"%char) (mkEnv 1 0 0) 100 100 1;
                   mkLoopInput (Some "a"%char) (mkEnv 1 0 0) 200 200 1;
                   mkLoopInput None (mkEnv 1 0 0) 0 3000 1]
                  startup s Hs)).
Defined.

Lemma globals_independent_of_radio_witness :
  run_loop (ControlProtocol.encryptFrame sample_wire)
    [mkLoopInput (Some "W"%char) (mkEnv 1 0 0) 100 100 1;
     mkLoopInput None (mkEnv 1 0 0) 0 3000 1]
    startup
  = run_loop (fun _ _ => None)
      [mkLoopInput (Some "W"%char) (mkEnv 0 7 9) 100 100 0;
       mkLoopInput None (mkEnv 0 7 9) 0 3000 0]
      startup.
Proof.
  apply (globals_independent_of_radio (ControlProtocol.encryptFrame sample_wire)
           (fun _ _ => None)).
  repeat constructor.
Defined.

End GatewayRun.

(** ** The receiver's safety timer *)

Module ReceiverSpec.

Import ControlProtocol Receiver.


(** A pass in which nothing is accepted: only the timer and the ramp act. *)
Lemma pass_nothing_accepted (W : WireContract) (timeout : Z)
    (inp : PassInput) (r : State) :
  nothing_accepted W r inp = true ->
  fst (pass W timeout inp r)
  = mkReceiver
      (fst (TankShift.update (now inp)
              (if wrap_u32 (now inp - lastAcceptedTime r) >? timeout
               then TankShift.stop (tank r) else tank r)))
      (lastAcceptedSequence r) (lastAcceptedTime r).
Proof.
  unfold nothing_accepted, pass. intros Hna.
  assert (Hr : match rx inp with
               | Some rawBytes =>
                   match onFrameReceived W rawBytes r with
                   | inl f => mkReceiver (applyCommand f (tank r))
                                (Some (sequence f)) (now inp)
                   | inr _ => r
                   end
               | None => r
               end = r).
  { destruct (rx inp) as [rawBytes |]; [| reflexivity].
    destruct (onFrameReceived W rawBytes r); [discriminate Hna | reflexivity]. }
  rewrite Hr.
  destruct (wrap_u32 (now inp - lastAcceptedTime r) >? timeout);
    cbn [tank lastAcceptedSequence lastAcceptedTime];
    match goal with
    | |- context [TankShift.update ?c ?t] => destruct (TankShift.update c t)
    end; reflexivity.
Qed.

Lemma forallb_same {A : Type} (f g : A -> bool) (l : list A) :
  (forall x, f x = g x) -> forallb f l = forallb g l.
Proof.
  intros E. induction l as [| x rest IH]; cbn [forallb]; [reflexivity|].
  rewrite E, IH. reflexivity.
Qed.

Lemma nothing_accepted_same_guard (W : WireContract) (r1 r2 : State) (inp : PassInput) :
  lastAcceptedSequence r1 = lastAcceptedSequence r2 ->
  nothing_accepted W r1 inp = nothing_accepted W r2 inp.
Proof.
  intros E. unfold nothing_accepted, onFrameReceived. rewrite E. reflexivity.
Qed.

Lemma run_nothing_accepted (W : WireContract) (timeout : Z) (inps : list PassInput) :
  forall r,
    forallb (nothing_accepted W r) inps = true ->
    lastAcceptedSequence (run_passes W timeout inps r) = lastAcceptedSequence r /\
    lastAcceptedTime (run_passes W timeout inps r) = lastAcceptedTime r.
Proof.
  induction inps as [| inp rest IH]; intros r Hall.
  - split; reflexivity.
  - cbn [forallb] in Hall. apply andb_true_iff in Hall. destruct Hall as [Hinp Hrest].
    cbn [run_passes].
    pose proof (pass_nothing_accepted W timeout inp r Hinp) as Hpass.
    assert (Hseq : lastAcceptedSequence (fst (pass W timeout inp r))
                   = lastAcceptedSequence r) by (rewrite Hpass; reflexivity).
    assert (Htime : lastAcceptedTime (fst (pass W timeout inp r))
                    = lastAcceptedTime r) by (rewrite Hpass; reflexivity).
    destruct (IH (fst (pass W timeout inp r))) as [IHs IHt].
    + rewrite (forallb_same _ (nothing_accepted W r)); [exact Hrest|].
      intros x. apply nothing_accepted_same_guard. exact Hseq.
    + split; congruence.
Qed.



End ReceiverSpec.
